(** * Admission control, key store and artifact reaper of [main.py]

    A shallow embedding of the key store ([api_keys_db], its snapshot file),
    the sliding-window rate limiter ([rate_limit_tracker]), the admission
    dependency [get_api_key], the admin endpoints and the periodic sweep of
    [cleanup_temp_files].

    Modelling conventions.
    - The two module-level dictionaries are finite maps keyed by strings.
    - [time.time()] readings are exact rationals (seconds); the rounding of
      binary floating point is not modelled.
    - Every reading of a clock, of the random source and of the environment
      is an explicit argument of the function that performs it.
    - A raised exception is a value of [exn]; an [HTTPException] keeps its
      status code (the [detail] text is not modelled).
    - [print] appends a line to the [stdout] component of the state.
    - The snapshot file holds either text that is not JSON or a JSON value;
      [json.dump] followed by [json.load] is taken to give back the value
      that was written. *)

From Stdlib Require Import QArith Lqa.
From stdpp Require Import base gmap strings list fin_maps.

(** ** Exceptions and results *)

Inductive exn :=
| HTTPException (status_code : Z)
| JSONDecodeError
| TypeError
| AttributeError
| ValidationError
| OSError (strerror : string).

Inductive outcome (A : Type) :=
| Return (a : A)
| Raise (e : exn).
Arguments Return {A} a.
Arguments Raise {A} e.

Definition HTTP_400_BAD_REQUEST : Z := 400.
Definition HTTP_401_UNAUTHORIZED : Z := 401.
Definition HTTP_403_FORBIDDEN : Z := 403.
Definition HTTP_404_NOT_FOUND : Z := 404.
Definition HTTP_429_TOO_MANY_REQUESTS : Z := 429.

(** ** Configuration (lines 21-24) *)

Definition API_KEY_FILE : string := "api_keys.json".
Definition TEMP_DOWNLOAD_DIR : string := "temp_downloads".
Definition MAX_FILE_AGE_SECONDS : Q := 3600.

(** [os.environ.get("MASTER_API_KEY", "your-super-secret-master-key")] *)
Definition MASTER_API_KEY (environ : gmap string string) : string :=
  default "your-super-secret-master-key" (environ !! "MASTER_API_KEY").

(** ** Records (lines 60-71) *)

Record APIKeyData := {
  key : string;
  owner : string;
  requests_per_minute : Z;
  is_active : bool;
  total_requests : Z;
  created_at : string;
  last_used : option string
}.

Record NewAPIKeyRequest := {
  req_owner : string;
  req_requests_per_minute : Z
}.

Definition set_is_active (b : bool) (d : APIKeyData) : APIKeyData :=
  {| key := key d; owner := owner d;
     requests_per_minute := requests_per_minute d; is_active := b;
     total_requests := total_requests d; created_at := created_at d;
     last_used := last_used d |}.

(** The two assignments of lines 127-128 on the stored object. *)
Definition record_use (utcnow : string) (d : APIKeyData) : APIKeyData :=
  {| key := key d; owner := owner d;
     requests_per_minute := requests_per_minute d; is_active := is_active d;
     total_requests := (total_requests d + 1)%Z; created_at := created_at d;
     last_used := Some utcnow |}.

(** ** JSON values, as [json.load] returns them *)

#[local] Unset Elimination Schemes.
Inductive json :=
| JNull
| JBool (b : bool)
| JInt (n : Z)
| JFloat (q : Q)
| JStr (s : string)
| JList (l : list json)
| JDict (items : list (string * json)).
#[local] Set Elimination Schemes.

(** The items of [data.dict()] for an [APIKeyData]: all seven fields. *)
Definition fields (d : APIKeyData) : list (string * json) :=
  [ ("key", JStr (key d));
    ("owner", JStr (owner d));
    ("requests_per_minute", JInt (requests_per_minute d));
    ("is_active", JBool (is_active d));
    ("total_requests", JInt (total_requests d));
    ("created_at", JStr (created_at d));
    ("last_used", match last_used d with
                  | Some s => JStr s
                  | None => JNull
                  end) ].

Definition dict (d : APIKeyData) : json := JDict (fields d).

(** A keyword argument, looked up by name. *)
Fixpoint kwarg (name : string) (kw : list (string * json)) : option json :=
  match kw with
  | [] => None
  | (n, v) :: rest => if String.eqb n name then Some v else kwarg name rest
  end.

(** Field validators.  [None] stands for a validation error; the outer
    option of the optional fields tells whether the default applies. *)
Definition required_str (o : option json) : option string :=
  match o with Some (JStr s) => Some s | _ => None end.

Definition required_int (o : option json) : option Z :=
  match o with Some (JInt n) => Some n | _ => None end.

Definition bool_or (dflt : bool) (o : option json) : option bool :=
  match o with
  | None => Some dflt
  | Some (JBool b) => Some b
  | Some _ => None
  end.

Definition int_or (dflt : Z) (o : option json) : option Z :=
  match o with
  | None => Some dflt
  | Some (JInt n) => Some n
  | Some _ => None
  end.

Definition str_or (dflt : string) (o : option json) : option string :=
  match o with
  | None => Some dflt
  | Some (JStr s) => Some s
  | Some _ => None
  end.

Definition optional_str (o : option json) : option (option string) :=
  match o with
  | None => Some None
  | Some JNull => Some None
  | Some (JStr s) => Some (Some s)
  | Some _ => None
  end.

(** The constructor of the pydantic model [APIKeyData], called with the
    entries of [kw] as keyword arguments (line 91), with its
    defaults ([is_active = True], [total_requests = 0], [created_at] from
    the clock, [last_used = None]).  A field is accepted when its JSON value
    has the declared type; the coercions of other types that pydantic may
    perform are not modelled and are reported as [None], which stands for
    the [ValidationError] the constructor raises. *)
Definition APIKeyData_init (utcnow : string) (kw : list (string * json))
  : option APIKeyData :=
  k ← required_str (kwarg "key" kw);
  o ← required_str (kwarg "owner" kw);
  r ← required_int (kwarg "requests_per_minute" kw);
  a ← bool_or true (kwarg "is_active" kw);
  t ← int_or 0%Z (kwarg "total_requests" kw);
  c ← str_or utcnow (kwarg "created_at" kw);
  l ← optional_str (kwarg "last_used" kw);
  Some {| key := k; owner := o; requests_per_minute := r; is_active := a;
          total_requests := t; created_at := c; last_used := l |}.

(** ** Process state *)

Inductive file_content :=
| NotJson
| Json (data : json).

Record state := {
  api_keys_db : gmap string APIKeyData;
  rate_limit_tracker : gmap string (list Q);
  api_key_file : option file_content;
  stdout : list string
}.

Definition set_db (db : gmap string APIKeyData) (s : state) : state :=
  {| api_keys_db := db; rate_limit_tracker := rate_limit_tracker s;
     api_key_file := api_key_file s; stdout := stdout s |}.

Definition set_tracker (tr : gmap string (list Q)) (s : state) : state :=
  {| api_keys_db := api_keys_db s; rate_limit_tracker := tr;
     api_key_file := api_key_file s; stdout := stdout s |}.

Definition set_file (f : option file_content) (s : state) : state :=
  {| api_keys_db := api_keys_db s; rate_limit_tracker := rate_limit_tracker s;
     api_key_file := f; stdout := stdout s |}.

Definition print (line : string) (s : state) : state :=
  {| api_keys_db := api_keys_db s; rate_limit_tracker := rate_limit_tracker s;
     api_key_file := api_key_file s; stdout := stdout s ++ [line] |}.

(** The state of a process that has just been started on a given snapshot
    file: both dictionaries are empty (lines 75-76). *)
Definition fresh_process (f : option file_content) : state :=
  {| api_keys_db := ∅; rate_limit_tracker := ∅;
     api_key_file := f; stdout := [] |}.

(** ** Snapshot (lines 78-93) *)

Definition dump_db (db : gmap string APIKeyData) : json :=
  JDict ((λ kd : string * APIKeyData, (kd.1, dict kd.2)) <$> map_to_list db).

Definition save_keys_to_file (s : state) : state :=
  set_file (Some (Json (dump_db (api_keys_db s)))) s.

(** The loop of lines 90-91; it stops at the first exception and keeps the
    entries stored before it. *)
Fixpoint load_items (utcnow : string) (items : list (string * json))
    (db : gmap string APIKeyData) : gmap string APIKeyData * option exn :=
  match items with
  | [] => (db, None)
  | (k, value) :: rest =>
      match value with
      | JDict kw =>
          match APIKeyData_init utcnow kw with
          | Some d => load_items utcnow rest (<[k := d]> db)
          | None => (db, Some ValidationError)
          end
      | _ => (db, Some TypeError)
      end
  end.

Definition load_warning : string :=
  "Warning: Could not parse " +:+ API_KEY_FILE
    +:+ ". Starting with an empty key database.".

(** [load_keys_from_file]: the second component is the exception that
    leaves the function, if any.  [JSONDecodeError] and [TypeError] are
    caught (line 92); a JSON value that is not an object has no [items]
    attribute. *)
Definition load_keys_from_file (utcnow : string) (s : state)
  : state * option exn :=
  match api_key_file s with
  | None => (s, None)
  | Some NotJson => (print load_warning s, None)
  | Some (Json (JDict items)) =>
      let '(db, e) := load_items utcnow items (api_keys_db s) in
      match e with
      | None => (set_db db s, None)
      | Some TypeError => (print load_warning (set_db db s), None)
      | Some JSONDecodeError => (print load_warning (set_db db s), None)
      | Some e' => (set_db db s, Some e')
      end
  | Some (Json _) => (s, Some AttributeError)
  end.

(** ** Admission (lines 95-132) *)

Definition Qlt_bool (x y : Q) : bool := negb (Qle_bool y x).

(** Line 116: the timestamps of the window that are less than 60 seconds
    old. *)
Definition recent (current_time : Q) (window : list Q) : list Q :=
  List.filter (λ t, Qlt_bool (current_time - t) 60) window.
Arguments recent : simpl never.

(** [get_api_key]: [current_time] is the reading of [time.time()] and
    [utcnow] the text of [datetime.utcnow().isoformat()].  [key_data] is
    the object stored in [api_keys_db], so the updates of lines 127-128
    are updates of the stored record. *)
Definition get_api_key (api_key : string) (current_time : Q)
    (utcnow : string) (s : state) : outcome APIKeyData * state :=
  match api_keys_db s !! api_key with
  | None => (Raise (HTTPException HTTP_401_UNAUTHORIZED), s)
  | Some key_data =>
      if negb (is_active key_data) then
        (Raise (HTTPException HTTP_403_FORBIDDEN), s)
      else
        let window :=
          recent current_time (default [] (rate_limit_tracker s !! api_key)) in
        if (requests_per_minute key_data <=? Z.of_nat (length window))%Z then
          (Raise (HTTPException HTTP_429_TOO_MANY_REQUESTS),
           set_tracker (<[api_key := window]> (rate_limit_tracker s)) s)
        else
          let key_data' := record_use utcnow key_data in
          (Return key_data',
           set_db (<[api_key := key_data']> (api_keys_db s))
             (set_tracker
                (<[api_key := window ++ [current_time]]> (rate_limit_tracker s))
                s))
  end.

(** ** Startup and shutdown (lines 156-182) *)

(** A string is true in a condition when it is not empty. *)
Definition truthy (k : string) : bool := negb (String.eqb k "").

(** Line 163: [any(k for k, v in api_keys_db.items() if v.owner == "master")]. *)
Definition any_master (db : gmap string APIKeyData) : bool :=
  existsb truthy
    (fst <$> List.filter (λ kv : string * APIKeyData, String.eqb (owner kv.2) "master")
               (map_to_list db)).

Definition master_record (master_key utcnow : string) : APIKeyData :=
  {| key := master_key; owner := "master"; requests_per_minute := 100;
     is_active := true; total_requests := 0; created_at := utcnow;
     last_used := None |}.

(** Lines 162-172 of [startup_event]. *)
Definition ensure_master (master_key utcnow : string) (s : state) : state :=
  if negb (any_master (api_keys_db s)) then
    print "Master API key has been configured."
      (save_keys_to_file
         (set_db (<[master_key := master_record master_key utcnow]> (api_keys_db s)) s))
  else s.

(** [startup_event]; [utcnow_load] is the clock seen by the records built
    while loading, [utcnow] the one seen by the master record.  The
    creation of the download directory and the start of the reaper task
    do not touch the state modelled here. *)
Definition startup_event (environ : gmap string string)
    (utcnow_load utcnow : string) (s : state) : state * option exn :=
  let s1 := print "Starting up the API server..." s in
  match load_keys_from_file utcnow_load s1 with
  | (s2, Some e) => (s2, Some e)
  | (s2, None) =>
      (print "API is ready to accept requests."
         (ensure_master (MASTER_API_KEY environ) utcnow s2), None)
  end.

Definition shutdown_event (s : state) : state :=
  save_keys_to_file (print "Shutting down... saving API keys." s).

(** ** Admin endpoints (lines 345-404) *)

Inductive response :=
| RespKey (d : APIKeyData)
| RespKeys (ds : list APIKeyData)
| RespMessage (message : string).

Definition is_master (environ : gmap string string) (api_key : string)
  : outcome bool :=
  if negb (String.eqb api_key (MASTER_API_KEY environ)) then
    Raise (HTTPException HTTP_403_FORBIDDEN)
  else Return true.

(** [generate_api_key]; [token] is the value of [secrets.token_urlsafe(24)]. *)
Definition generate_api_key (request : NewAPIKeyRequest) (token utcnow : string)
    (s : state) : outcome response * state :=
  let new_key := "ytapi_" +:+ token in
  let key_data :=
    {| key := new_key; owner := req_owner request;
       requests_per_minute := req_requests_per_minute request;
       is_active := true; total_requests := 0; created_at := utcnow;
       last_used := None |} in
  (Return (RespKey key_data),
   save_keys_to_file (set_db (<[new_key := key_data]> (api_keys_db s)) s)).

Definition list_api_keys (s : state) : outcome response * state :=
  (Return (RespKeys (snd <$> map_to_list (api_keys_db s))), s).

Definition toggle_api_key_status (environ : gmap string string)
    (key_to_update : string) (s : state) : outcome response * state :=
  match api_keys_db s !! key_to_update with
  | None => (Raise (HTTPException HTTP_404_NOT_FOUND), s)
  | Some d =>
      if String.eqb key_to_update (MASTER_API_KEY environ) then
        (Raise (HTTPException HTTP_400_BAD_REQUEST), s)
      else
        let d' := set_is_active (negb (is_active d)) d in
        let s' :=
          save_keys_to_file (set_db (<[key_to_update := d']> (api_keys_db s)) s) in
        let status := if is_active d' then "active" else "inactive" in
        (Return (RespMessage
                   ("API key for '" +:+ owner d' +:+ "' is now " +:+ status +:+ ".")),
         s')
  end.

Definition delete_api_key (environ : gmap string string)
    (key_to_delete : string) (s : state) : outcome response * state :=
  match api_keys_db s !! key_to_delete with
  | None => (Raise (HTTPException HTTP_404_NOT_FOUND), s)
  | Some d =>
      if String.eqb key_to_delete (MASTER_API_KEY environ) then
        (Raise (HTTPException HTTP_400_BAD_REQUEST), s)
      else
        let deleted_key_owner := owner d in
        (Return (RespMessage
                   ("Successfully deleted API key for owner: '"
                      +:+ deleted_key_owner +:+ "'.")),
         save_keys_to_file (set_db (delete key_to_delete (api_keys_db s)) s))
  end.

(** An admin route runs the [is_master] dependency on the presented key
    before its handler. *)
Definition admin_route (environ : gmap string string) (api_key : string)
    (handler : state → outcome response * state) (s : state)
  : outcome response * state :=
  match is_master environ api_key with
  | Raise e => (Raise e, s)
  | Return _ => handler s
  end.

(** ** Requests and reachable states *)

Inductive request :=
| Admission (api_key : string) (current_time : Q) (utcnow : string)
| Generate (api_key : string) (body : NewAPIKeyRequest) (token utcnow : string)
| ListKeys (api_key : string)
| Toggle (api_key key_to_update : string)
| Delete (api_key key_to_delete : string).

Definition handle (environ : gmap string string) (r : request) (s : state)
  : state :=
  match r with
  | Admission api_key current_time utcnow =>
      (get_api_key api_key current_time utcnow s).2
  | Generate api_key body token utcnow =>
      (admin_route environ api_key (generate_api_key body token utcnow) s).2
  | ListKeys api_key => (admin_route environ api_key list_api_keys s).2
  | Toggle api_key k =>
      (admin_route environ api_key (toggle_api_key_status environ k) s).2
  | Delete api_key k =>
      (admin_route environ api_key (delete_api_key environ k) s).2
  end.

(** States of a deployment with a fixed environment: the first start finds
    no snapshot file; requests are served; the process may be restarted,
    with or without the shutdown hook having run, on the file it left. *)
Inductive reachable (environ : gmap string string) : state → Prop :=
| reach_boot utcnow_load utcnow s :
    startup_event environ utcnow_load utcnow (fresh_process None) = (s, None) →
    reachable environ s
| reach_request s r :
    reachable environ s → reachable environ (handle environ r s)
| reach_shutdown s :
    reachable environ s → reachable environ (shutdown_event s)
| reach_restart s utcnow_load utcnow s' :
    reachable environ s →
    startup_event environ utcnow_load utcnow (fresh_process (api_key_file s))
      = (s', None) →
    reachable environ s'.

(** ** Artifact reaper (lines 139-152) *)

(** What the sweep can observe of a directory entry: whether
    [os.path.isfile] holds, its modification time, and what [os.remove]
    does on it ([None]: the file is removed; [Some msg]: [OSError] with
    that message). *)
Record dirent := {
  isfile : bool;
  st_mtime : Q;
  remove_error : option string
}.

(** Line 148: the file is older than the maximum age. *)
Definition expired (now : Q) (f : dirent) : bool :=
  isfile f && Qlt_bool (st_mtime f) (now - MAX_FILE_AGE_SECONDS).

(** The [for] loop of lines 145-150 over the names [os.listdir] returned.
    An exception leaves the loop at once. *)
Fixpoint sweep_files (now : Q) (names : list string)
    (dir : gmap string dirent) (out : list string)
  : gmap string dirent * list string * option exn :=
  match names with
  | [] => (dir, out, None)
  | filename :: rest =>
      match dir !! filename with
      | Some f =>
          if isfile f then
            if Qlt_bool (st_mtime f) (now - MAX_FILE_AGE_SECONDS) then
              match remove_error f with
              | None =>
                  sweep_files now rest (delete filename dir)
                    (out ++ ["Cleaned up old file: " +:+ filename])
              | Some msg => (dir, out, Some (OSError msg))
              end
            else sweep_files now rest dir out
          else sweep_files now rest dir out
      | None => sweep_files now rest dir out
      end
  end.

(** One iteration of the [while] loop of [cleanup_temp_files], after the
    sleep: [now] is [time.time()], [names] is the listing of the
    directory.  The [try] encloses the whole [for] loop. *)
Definition cleanup_sweep (now : Q) (names : list string)
    (dir : gmap string dirent) (out : list string)
  : gmap string dirent * list string :=
  match sweep_files now names dir out with
  | (dir', out', None) => (dir', out')
  | (dir', out', Some (OSError msg)) =>
      (dir', out' ++ ["Error during file cleanup: " +:+ msg])
  | (dir', out', Some _) => (dir', out' ++ ["Error during file cleanup: "])
  end.

(** A listing of a directory names each of its entries. *)
Definition listing_of (dir : gmap string dirent) (names : list string) : Prop :=
  ∀ n, n ∈ names ↔ is_Some (dir !! n).

(** ** Auxiliary notions used in the statements *)

(** The entries of the store whose owner is the text master. *)
Definition masters (db : gmap string APIKeyData) : list (string * APIKeyData) :=
  List.filter (λ kv : string * APIKeyData, String.eqb (owner kv.2) "master")
    (map_to_list db).

(** A request that may replace, flip or remove the record stored under
    [k]: a toggle or a delete of [k], or a generation whose new key is [k]. *)
Definition rewrites (k : string) (r : request) : bool :=
  match r with
  | Admission _ _ _ => false
  | ListKeys _ => false
  | Generate _ _ token _ => String.eqb ("ytapi_" +:+ token) k
  | Toggle _ k' => String.eqb k' k
  | Delete _ k' => String.eqb k' k
  end.

(** Serving a sequence of requests, in order. *)
Definition serve (environ : gmap string string) (rs : list request) (s : state)
  : state :=
  foldl (λ s r, handle environ r s) s rs.

(** The record stored under the configured master key exists and is
    active. *)
Definition master_active (environ : gmap string string)
    (db : gmap string APIKeyData) : Prop :=
  ∃ d, db !! MASTER_API_KEY environ = Some d ∧ is_active d = true.

(** The store holds an active master-key record, and so does the mapping
    that the snapshot file was written from. *)
Definition store_invariant (environ : gmap string string) (s : state) : Prop :=
  master_active environ (api_keys_db s)
  ∧ ∃ m, api_key_file s = Some (Json (dump_db m)) ∧ master_active environ m.

(** The snapshot file holds the serialization of the current store. *)
Definition snapshot_current (s : state) : Prop :=
  api_key_file s = Some (Json (dump_db (api_keys_db s))).

(** ** Successive admissions of one key *)

(** The admission check run once per entry of [calls] (a reading of
    [time.time()] and one of [datetime.utcnow()]) for the same key, in
    order: the outcomes and the final state. *)
Fixpoint admit_each (k : string) (calls : list (Q * string)) (s : state)
  : list (outcome APIKeyData) * state :=
  match calls with
  | [] => ([], s)
  | c :: rest =>
      let r := get_api_key k c.1 c.2 s in
      let rs := admit_each k rest r.2 in
      (r.1 :: rs.1, rs.2)
  end.

Definition admitted {A : Type} (o : outcome A) : bool :=
  match o with
  | Return _ => true
  | Raise _ => false
  end.

Definition count_admitted {A : Type} (os : list (outcome A)) : nat :=
  length (List.filter admitted os).

(** Every record is stored under its own [key] field and its request
    counter is not negative. *)
Definition records_wf (db : gmap string APIKeyData) : Prop :=
  ∀ k d, db !! k = Some d → key d = k ∧ (0 ≤ total_requests d)%Z.

Definition store_wf (s : state) : Prop :=
  records_wf (api_keys_db s)
  ∧ ∃ m, api_key_file s = Some (Json (dump_db m)) ∧ records_wf m.

(** ** Artifact names of [download_video] (lines 256 and 276-280) *)

(** Line 256: the video identifier, an underscore and the value of
    [secrets.token_hex(4)]. *)
Definition unique_filename_base (video_id token : string) : string :=
  video_id +:+ "_" +:+ token.

(** [os.path.join] of two components on a POSIX system. *)
Definition os_path_join (a b : string) : string :=
  if String.prefix "/" b then b
  else if String.eqb a "" then b
  else if String.eqb (String.substring (String.length a - 1) 1 a) "/"
       then a +:+ b
       else a +:+ "/" +:+ b.

(** Lines 276-280: the first name of the listing of the download
    directory that starts with the base, joined to the directory. *)
Fixpoint downloaded_file (listing : list string) (base : string)
  : option string :=
  match listing with
  | [] => None
  | file :: rest =>
      if String.prefix base file
      then Some (os_path_join TEMP_DOWNLOAD_DIR file)
      else downloaded_file rest base
  end.

(** Line 309 of [download_audio]: the base of an audio job. *)
Definition audio_filename_base (video_id token : string) : string :=
  video_id +:+ "_audio_" +:+ token.

(** The characters that [secrets.token_hex] produces. *)
Definition hexdigit (c : Ascii.ascii) : bool :=
  existsb (Ascii.eqb c) (String.list_ascii_of_string "0123456789abcdef").

(** The lines that a sweep prints for the files it removes. *)
Definition cleaned_lines (now : Q) (names : list string)
    (dir : gmap string dirent) : list string :=
  (λ n, "Cleaned up old file: " +:+ n)
    <$> List.filter (λ n, match dir !! n with
                          | Some f => expired now f
                          | None => false
                          end) names.

(** * Properties *)

(** ** Rational comparisons *)

Lemma Qlt_bool_true x y : Qlt_bool x y = true ↔ (x < y)%Q.
Proof.
  unfold Qlt_bool. rewrite negb_true_iff.
  destruct (Qle_bool y x) eqn:E.
  - apply Qle_bool_iff in E. split; [discriminate | intros H; lra].
  - split; [intros _ | reflexivity].
    apply Qnot_le_lt. intros H. apply Qle_bool_iff in H. congruence.
Qed.

Lemma Qlt_bool_false x y : Qlt_bool x y = false ↔ (y <= x)%Q.
Proof.
  unfold Qlt_bool. rewrite negb_false_iff. apply Qle_bool_iff.
Qed.

(** ** The window filter *)

Lemma recent_spec now w t :
  In t (recent now w) ↔ In t w ∧ ¬ (60 <= now - t)%Q.
Proof.
  unfold recent. rewrite filter_In, Qlt_bool_true.
  split; intros [H1 H2]; split; try done; lra.
Qed.

Lemma recent_sublist now w : sublist (recent now w) w.
Proof.
  unfold recent. induction w as [|t w IH]; simpl; [constructor |].
  destruct (Qlt_bool (now - t) 60); by constructor.
Qed.

Lemma recent_all now w :
  Forall (λ t, (now - t < 60)%Q) w → recent now w = w.
Proof.
  unfold recent. induction 1 as [|t w Ht _ IH]; simpl; [done |].
  apply Qlt_bool_true in Ht. rewrite Ht. by f_equal.
Qed.

(** ** Admission: the three refusals and the admission *)

Section admission.
Variables (api_key : string) (current_time : Q) (utcnow : string) (s : state).

Lemma get_api_key_absent :
  api_keys_db s !! api_key = None →
  get_api_key api_key current_time utcnow s
  = (Raise (HTTPException 401), s).
Proof. intros H. unfold get_api_key. by rewrite H. Qed.

Lemma get_api_key_inactive d :
  api_keys_db s !! api_key = Some d → is_active d = false →
  get_api_key api_key current_time utcnow s
  = (Raise (HTTPException 403), s).
Proof. intros H Ha. unfold get_api_key. by rewrite H, Ha. Qed.

Lemma get_api_key_throttled d :
  api_keys_db s !! api_key = Some d → is_active d = true →
  (requests_per_minute d
     ≤ Z.of_nat (length (recent current_time
                           (default [] (rate_limit_tracker s !! api_key)))))%Z →
  get_api_key api_key current_time utcnow s
  = (Raise (HTTPException 429),
     set_tracker
       (<[api_key := recent current_time
                       (default [] (rate_limit_tracker s !! api_key))]>
          (rate_limit_tracker s)) s).
Proof.
  intros H Ha Hq. unfold get_api_key. rewrite H, Ha. simpl.
  apply Z.leb_le in Hq. by rewrite Hq.
Qed.

Lemma get_api_key_admitted d :
  api_keys_db s !! api_key = Some d → is_active d = true →
  (Z.of_nat (length (recent current_time
                       (default [] (rate_limit_tracker s !! api_key))))
     < requests_per_minute d)%Z →
  get_api_key api_key current_time utcnow s
  = (Return (record_use utcnow d),
     set_db (<[api_key := record_use utcnow d]> (api_keys_db s))
       (set_tracker
          (<[api_key := recent current_time
                          (default [] (rate_limit_tracker s !! api_key))
                        ++ [current_time]]>
             (rate_limit_tracker s)) s)).
Proof.
  intros H Ha Hq. unfold get_api_key. rewrite H, Ha. simpl.
  apply Z.leb_gt in Hq. by rewrite Hq.
Qed.
End admission.

(** ** Deactivated keys stay refused *)

Lemma handle_keeps_inactive environ r s k d :
  api_keys_db s !! k = Some d → is_active d = false →
  rewrites k r = false →
  ∃ d', api_keys_db (handle environ r s) !! k = Some d' ∧ is_active d' = false.
Proof.
  intros Hk Hd Hr.
  destruct r as [k' t u | a b tok u | a | a k' | a k']; cbn [rewrites handle] in *.
  - unfold get_api_key.
    destruct (api_keys_db s !! k') as [d0|] eqn:E; [| by eauto].
    destruct (is_active d0) eqn:Ea; simpl; [| by eauto].
    destruct (_ <=? _)%Z; simpl; [by eauto |].
    destruct (decide (k' = k)) as [->|Hne].
    + congruence.
    + rewrite lookup_insert_ne by done. eauto.
  - unfold admin_route. destruct (is_master environ a); simpl; [| by eauto].
    apply String.eqb_neq in Hr. rewrite lookup_insert_ne by done. eauto.
  - unfold admin_route. destruct (is_master environ a); simpl; by eauto.
  - unfold admin_route. destruct (is_master environ a); simpl; [| by eauto].
    unfold toggle_api_key_status.
    destruct (api_keys_db s !! k'); [| by eauto].
    destruct (String.eqb k' (MASTER_API_KEY environ)); simpl; [by eauto |].
    apply String.eqb_neq in Hr. rewrite lookup_insert_ne by done. eauto.
  - unfold admin_route. destruct (is_master environ a); simpl; [| by eauto].
    unfold delete_api_key.
    destruct (api_keys_db s !! k'); [| by eauto].
    destruct (String.eqb k' (MASTER_API_KEY environ)); simpl; [by eauto |].
    apply String.eqb_neq in Hr. rewrite lookup_delete_ne by done. eauto.
Qed.

Lemma serve_keeps_inactive environ rs s k d :
  api_keys_db s !! k = Some d → is_active d = false →
  forallb (λ r, negb (rewrites k r)) rs = true →
  ∃ d', api_keys_db (serve environ rs s) !! k = Some d' ∧ is_active d' = false.
Proof.
  revert s d. induction rs as [|r rs IH]; intros s d Hk Hd Hrs; simpl in *.
  - eauto.
  - apply andb_true_iff in Hrs as [Hr Hrs]. apply negb_true_iff in Hr.
    destruct (handle_keeps_inactive environ r s k d Hk Hd Hr) as (d' & Hk' & Hd').
    by apply (IH _ d').
Qed.

Lemma is_master_self environ :
  is_master environ (MASTER_API_KEY environ) = Return true.
Proof. unfold is_master. by rewrite String.eqb_refl. Qed.

Lemma toggle_deactivates environ s k d :
  api_keys_db s !! k = Some d → is_active d = true →
  k ≠ MASTER_API_KEY environ →
  api_keys_db
    (admin_route environ (MASTER_API_KEY environ)
       (toggle_api_key_status environ k) s).2 !! k
  = Some (set_is_active false d).
Proof.
  intros Hk Hd Hne. unfold admin_route. rewrite is_master_self.
  unfold toggle_api_key_status. rewrite Hk.
  apply String.eqb_neq in Hne. rewrite Hne. simpl.
  rewrite lookup_insert_eq. by rewrite Hd.
Qed.

(** C1.  The admission check tests existence, then the active flag, then
    the quota, and reports the first failure: 401 for a key that is not in
    the store, 403 for a stored key that is inactive (whatever its window
    holds), 429 when the window already holds as many recent requests as
    the quota, and the updated record otherwise.  Once an active key other
    than the master key has been toggled by the administrator, every later
    admission of it is refused with 403, after any requests that do not
    toggle, delete or regenerate that key, at any time and whatever its
    quota. *)
Theorem admission_checks_in_order environ k now utcnow s :
  (api_keys_db s !! k = None →
   get_api_key k now utcnow s = (Raise (HTTPException 401), s))
  ∧ (∀ d, api_keys_db s !! k = Some d → is_active d = false →
     get_api_key k now utcnow s = (Raise (HTTPException 403), s))
  ∧ (∀ d, api_keys_db s !! k = Some d → is_active d = true →
     (requests_per_minute d
        ≤ Z.of_nat (length (recent now (default [] (rate_limit_tracker s !! k)))))%Z →
     (get_api_key k now utcnow s).1 = Raise (HTTPException 429))
  ∧ (∀ d, api_keys_db s !! k = Some d → is_active d = true →
     (Z.of_nat (length (recent now (default [] (rate_limit_tracker s !! k))))
        < requests_per_minute d)%Z →
     (get_api_key k now utcnow s).1 = Return (record_use utcnow d))
  ∧ (∀ d, api_keys_db s !! k = Some d → is_active d = true →
     k ≠ MASTER_API_KEY environ →
     ∀ rs, forallb (λ r, negb (rewrites k r)) rs = true →
       let s' := serve environ rs
                   (admin_route environ (MASTER_API_KEY environ)
                      (toggle_api_key_status environ k) s).2 in
       get_api_key k now utcnow s' = (Raise (HTTPException 403), s')).
Proof.
  split; [apply get_api_key_absent |].
  split; [apply get_api_key_inactive |].
  split; [intros d H1 H2 H3; by rewrite (get_api_key_throttled _ _ _ _ d) |].
  split; [intros d H1 H2 H3; by rewrite (get_api_key_admitted _ _ _ _ d) |].
  intros d Hk Hd Hne rs Hrs s'.
  pose proof (toggle_deactivates environ s k d Hk Hd Hne) as Ht.
  destruct (serve_keeps_inactive environ rs _ k _ Ht eq_refl Hrs) as (d' & Hk' & Hd').
  by apply (get_api_key_inactive _ _ _ _ d').
Qed.

Lemma admission_checks_in_order_witness :
  let s := {| api_keys_db := {[ "k1" := {| key := "k1"; owner := "alice";
                                          requests_per_minute := 2;
                                          is_active := true; total_requests := 0;
                                          created_at := "c"; last_used := None |} ]};
              rate_limit_tracker := ∅; api_key_file := None; stdout := [] |} in
  let s' := serve ∅ [Admission "k1" 1 "u"; ListKeys "k1"]
              (admin_route ∅ (MASTER_API_KEY ∅)
                 (toggle_api_key_status ∅ "k1") s).2 in
  get_api_key "k1" 5 "v" s' = (Raise (HTTPException 403), s').
Proof.
  intros s.
  apply (proj2 (proj2 (proj2 (proj2
           (admission_checks_in_order ∅ "k1" 5 "v" s))))
           {| key := "k1"; owner := "alice"; requests_per_minute := 2;
              is_active := true; total_requests := 0;
              created_at := "c"; last_used := None |}).
  - reflexivity.
  - reflexivity.
  - vm_compute. discriminate.
  - reflexivity.
Defined.

(** ** The sliding window *)

(** C2.  For a stored, active key the limiter part of the admission check
    keeps exactly the timestamps of the key's window that are less than 60
    seconds old, in their order; when the number kept is at least the quota
    it refuses with 429 and stores the pruned window without appending;
    otherwise it appends the current time and admits.  With a quota of 2
    and a window holding no recent request, three requests at
    non-decreasing times within one second are answered admitted,
    admitted, refused with 429. *)
Theorem sliding_window_acquire k s d :
  api_keys_db s !! k = Some d → is_active d = true →
  (∀ now utcnow,
     let w := recent now (default [] (rate_limit_tracker s !! k)) in
     (∀ t, In t w ↔ In t (default [] (rate_limit_tracker s !! k))
                    ∧ ¬ (60 <= now - t)%Q)
     ∧ sublist w (default [] (rate_limit_tracker s !! k))
     ∧ ((requests_per_minute d ≤ Z.of_nat (length w))%Z →
        get_api_key k now utcnow s
        = (Raise (HTTPException 429),
           set_tracker (<[k := w]> (rate_limit_tracker s)) s))
     ∧ ((Z.of_nat (length w) < requests_per_minute d)%Z →
        get_api_key k now utcnow s
        = (Return (record_use utcnow d),
           set_db (<[k := record_use utcnow d]> (api_keys_db s))
             (set_tracker (<[k := w ++ [now]]> (rate_limit_tracker s)) s))))
  ∧ (∀ t1 t2 t3 u1 u2 u3,
       requests_per_minute d = 2%Z →
       recent t1 (default [] (rate_limit_tracker s !! k)) = [] →
       (t1 <= t2)%Q → (t2 <= t3)%Q → (t3 - t1 <= 1)%Q →
       let r1 := get_api_key k t1 u1 s in
       let r2 := get_api_key k t2 u2 r1.2 in
       let r3 := get_api_key k t3 u3 r2.2 in
       r1.1 = Return (record_use u1 d)
       ∧ r2.1 = Return (record_use u2 (record_use u1 d))
       ∧ r3.1 = Raise (HTTPException 429)).
Proof.
  intros Hk Hd. split.
  - intros now utcnow w. split; [apply recent_spec |].
    split; [apply recent_sublist |].
    split; [apply get_api_key_throttled | apply get_api_key_admitted]; done.
  - intros t1 t2 t3 u1 u2 u3 Hq Hw H12 H23 H13 r1 r2 r3.
    assert (E1 : r1 = (Return (record_use u1 d),
                       set_db (<[k := record_use u1 d]> (api_keys_db s))
                         (set_tracker (<[k := [t1]]> (rate_limit_tracker s)) s))).
    { subst r1. rewrite (get_api_key_admitted k t1 u1 s d Hk Hd); rewrite Hw; simpl.
      - done.
      - lia. }
    assert (E2 : r2 = (Return (record_use u2 (record_use u1 d)),
                       set_db (<[k := record_use u2 (record_use u1 d)]>
                                 (api_keys_db r1.2))
                         (set_tracker (<[k := [t1; t2]]> (rate_limit_tracker r1.2))
                            r1.2))).
    { subst r2. rewrite E1. simpl.
      rewrite (get_api_key_admitted k t2 u2 _ (record_use u1 d));
        simpl; rewrite ?lookup_insert_eq; simpl; try done.
      - rewrite (recent_all t2 [t1]); [done |].
        repeat constructor. lra.
      - rewrite (recent_all t2 [t1]); [simpl; lia |].
        repeat constructor. lra. }
    split; [by rewrite E1 |]. split; [by rewrite E2 |].
    subst r3. rewrite E2. simpl.
    rewrite (get_api_key_throttled k t3 u3 _ (record_use u2 (record_use u1 d)));
      simpl; rewrite ?lookup_insert_eq; simpl; try done.
    rewrite (recent_all t3 [t1; t2]); [simpl; lia |].
    repeat constructor; lra.
Qed.

Lemma sliding_window_acquire_witness :
  let d := {| key := "k1"; owner := "alice"; requests_per_minute := 2;
              is_active := true; total_requests := 0;
              created_at := "c"; last_used := None |} in
  let s := {| api_keys_db := {[ "k1" := d ]};
              rate_limit_tracker := ∅; api_key_file := None; stdout := [] |} in
  let r1 := get_api_key "k1" 0 "a" s in
  let r2 := get_api_key "k1" (1 # 2) "b" r1.2 in
  let r3 := get_api_key "k1" 1 "c" r2.2 in
  r1.1 = Return (record_use "a" d)
  ∧ r2.1 = Return (record_use "b" (record_use "a" d))
  ∧ r3.1 = Raise (HTTPException 429).
Proof.
  intros d s.
  apply (proj2 (sliding_window_acquire "k1" s d eq_refl eq_refl)
           0%Q (1 # 2)%Q 1%Q "a" "b" "c").
  - reflexivity.
  - reflexivity.
  - vm_compute. discriminate.
  - vm_compute. discriminate.
  - vm_compute. discriminate.
Defined.

(** C8.  For a stored, active key whose quota is zero or negative the
    limiter part of the admission check refuses with 429, whatever the
    key's window holds and whatever the current time is. *)
Theorem nonpositive_quota_throttled k now utcnow s d :
  api_keys_db s !! k = Some d → is_active d = true →
  (requests_per_minute d ≤ 0)%Z →
  get_api_key k now utcnow s
  = (Raise (HTTPException 429),
     set_tracker
       (<[k := recent now (default [] (rate_limit_tracker s !! k))]>
          (rate_limit_tracker s)) s).
Proof.
  intros Hk Hd Hq. apply (get_api_key_throttled k now utcnow s d Hk Hd). lia.
Qed.

Lemma nonpositive_quota_throttled_witness :
  let d := {| key := "k0"; owner := "bob"; requests_per_minute := 0;
              is_active := true; total_requests := 0;
              created_at := "c"; last_used := None |} in
  let s := {| api_keys_db := {[ "k0" := d ]};
              rate_limit_tracker := ∅; api_key_file := None; stdout := [] |} in
  (get_api_key "k0" 7 "u" s).1 = Raise (HTTPException 429).
Proof.
  intros d s.
  rewrite (nonpositive_quota_throttled "k0" 7 "u" s d).
  - reflexivity.
  - reflexivity.
  - reflexivity.
  - vm_compute. discriminate.
Defined.

(** ** Refusals do not advance usage *)

(** C10.  When the admission check raises, the exception is one of 401,
    403 and 429, the key store and the snapshot file are unchanged, no
    window of another key changes, and the window of the presented key is
    a sublist of what it was (a 429 stores the pruned window; a 401 or a
    403 changes nothing at all).  The request counter and the last-use
    stamp change only when the check returns: then the stored record of
    the presented key, and only it, has its counter incremented by one and
    its stamp set, and the current time is appended to its window. *)
Theorem refusal_leaves_usage_unchanged k now utcnow s :
  (∀ e s', get_api_key k now utcnow s = (Raise e, s') →
     (e = HTTPException 401 ∨ e = HTTPException 403 ∨ e = HTTPException 429)
     ∧ api_keys_db s' = api_keys_db s
     ∧ api_key_file s' = api_key_file s
     ∧ (∀ k', k' ≠ k → rate_limit_tracker s' !! k' = rate_limit_tracker s !! k')
     ∧ sublist (default [] (rate_limit_tracker s' !! k))
               (default [] (rate_limit_tracker s !! k))
     ∧ (e ≠ HTTPException 429 → s' = s))
  ∧ (∀ d' s', get_api_key k now utcnow s = (Return d', s') →
     ∃ d, api_keys_db s !! k = Some d
          ∧ d' = record_use utcnow d
          ∧ total_requests d' = (total_requests d + 1)%Z
          ∧ last_used d' = Some utcnow
          ∧ api_keys_db s' = <[k := d']> (api_keys_db s)
          ∧ rate_limit_tracker s' !! k
            = Some (recent now (default [] (rate_limit_tracker s !! k)) ++ [now])).
Proof.
  unfold get_api_key.
  destruct (api_keys_db s !! k) as [d|] eqn:Hk.
  2:{ split; [| discriminate]. intros e s' [= <- <-].
      repeat split; eauto. }
  destruct (is_active d) eqn:Hd; simpl.
  2:{ split; [| discriminate]. intros e s' [= <- <-].
      repeat split; eauto. }
  destruct (_ <=? _)%Z eqn:Hq.
  - split; [| discriminate]. intros e s' [= <- <-]. simpl.
    split; [eauto |]. split; [done |]. split; [done |].
    split; [intros k' Hne; by rewrite lookup_insert_ne |].
    split; [| intros H; by destruct H].
    rewrite lookup_insert_eq. simpl. apply recent_sublist.
  - split; [discriminate |]. intros d' s' [= <- <-]. simpl.
    exists d. rewrite lookup_insert_eq. done.
Qed.

Lemma refusal_leaves_usage_unchanged_witness :
  let d := {| key := "k0"; owner := "bob"; requests_per_minute := 1;
              is_active := true; total_requests := 4;
              created_at := "c"; last_used := None |} in
  let s := {| api_keys_db := {[ "k0" := d ]};
              rate_limit_tracker := {[ "k0" := [3%Q] ]};
              api_key_file := None; stdout := [] |} in
  api_keys_db (get_api_key "k0" 7 "u" s).2 = api_keys_db s.
Proof.
  intros d s.
  apply (proj1 (refusal_leaves_usage_unchanged "k0" 7 "u" s)
           (HTTPException 429) (get_api_key "k0" 7 "u" s).2).
  reflexivity.
Defined.

(** ** Snapshot round trip *)

Lemma APIKeyData_init_fields utcnow d :
  APIKeyData_init utcnow (fields d) = Some d.
Proof. destruct d as [k o r a t c [l|]]; reflexivity. Qed.

Lemma load_items_dump utcnow (l : list (string * APIKeyData))
    (db0 : gmap string APIKeyData) :
  load_items utcnow ((λ kd : string * APIKeyData, (kd.1, dict kd.2)) <$> l) db0
  = (foldl (λ (m : gmap string APIKeyData) (kd : string * APIKeyData),
            <[kd.1 := kd.2]> m) db0 l, None).
Proof.
  revert db0. induction l as [|[k d] l IH]; intros db0; [done |].
  cbn [fmap list_fmap load_items fst snd foldl]. unfold dict.
  rewrite APIKeyData_init_fields. apply IH.
Qed.

Lemma foldl_insert_lookup (l : list (string * APIKeyData))
    (db0 : gmap string APIKeyData) k :
  NoDup l.*1 →
  foldl (λ (m : gmap string APIKeyData) (kd : string * APIKeyData),
         <[kd.1 := kd.2]> m) db0 l !! k
  = match (list_to_map l : gmap string APIKeyData) !! k with
    | Some v => Some v
    | None => db0 !! k
    end.
Proof.
  revert db0. induction l as [|[k1 v1] l IH]; intros db0 Hnd; simpl.
  - by rewrite lookup_empty.
  - apply NoDup_cons in Hnd as [Hk1 Hnd]. rewrite IH by done.
    destruct (decide (k1 = k)) as [->|Hne].
    + rewrite !lookup_insert_eq.
      by rewrite (not_elem_of_list_to_map_1 (M := gmap string) l k).
    + by rewrite !lookup_insert_ne.
Qed.

Lemma foldl_insert_map_to_list (m : gmap string APIKeyData) :
  foldl (λ (m' : gmap string APIKeyData) (kd : string * APIKeyData),
         <[kd.1 := kd.2]> m') ∅ (map_to_list m)
  = m.
Proof.
  apply map_eq. intros k.
  rewrite foldl_insert_lookup by apply NoDup_fst_map_to_list.
  rewrite list_to_map_to_list, lookup_empty. by destruct (m !! k).
Qed.

Lemma load_dump utcnow m s :
  api_keys_db s = ∅ → api_key_file s = Some (Json (dump_db m)) →
  load_keys_from_file utcnow s = (set_db m s, None).
Proof.
  intros Hdb Hf. unfold load_keys_from_file. rewrite Hf, Hdb.
  unfold dump_db. cbv iota beta.
  rewrite load_items_dump. by rewrite foldl_insert_map_to_list.
Qed.

(** C7.  Saving the key store and loading the written snapshot into the
    empty store of a new process gives back the same mapping: the same
    keys with records equal field by field, and no exception.  The rate
    windows are not part of the snapshot: the new process starts with
    none. *)
Theorem save_load_roundtrip utcnow s :
  let f := api_key_file (save_keys_to_file s) in
  load_keys_from_file utcnow (fresh_process f)
  = (set_db (api_keys_db s) (fresh_process f), None)
  ∧ api_keys_db (load_keys_from_file utcnow (fresh_process f)).1 = api_keys_db s
  ∧ rate_limit_tracker (load_keys_from_file utcnow (fresh_process f)).1 = ∅.
Proof.
  intros f.
  assert (E : load_keys_from_file utcnow (fresh_process f)
              = (set_db (api_keys_db s) (fresh_process f), None))
    by (by apply load_dump).
  rewrite E. done.
Qed.

(** ** The master key *)

Lemma master_active_insert environ (db : gmap string APIKeyData) k d :
  (k = MASTER_API_KEY environ → is_active d = true) →
  master_active environ db → master_active environ (<[k := d]> db).
Proof.
  intros Hk (d0 & Hd0 & Ha). unfold master_active.
  destruct (decide (k = MASTER_API_KEY environ)) as [->|Hne].
  - exists d. rewrite lookup_insert_eq. auto.
  - exists d0. by rewrite lookup_insert_ne.
Qed.

Lemma any_master_empty : any_master ∅ = false.
Proof. unfold any_master. by rewrite map_to_list_empty. Qed.

Lemma ensure_master_invariant environ utcnow s :
  (any_master (api_keys_db s) = true → store_invariant environ s) →
  store_invariant environ (ensure_master (MASTER_API_KEY environ) utcnow s).
Proof.
  intros H. unfold ensure_master.
  destruct (any_master (api_keys_db s)); simpl; [by apply H |].
  assert (master_active environ
            (<[MASTER_API_KEY environ
               := master_record (MASTER_API_KEY environ) utcnow]> (api_keys_db s))).
  { eexists. by rewrite lookup_insert_eq. }
  split; [done |]. by eexists.
Qed.

Lemma startup_invariant environ utcnow_load utcnow f s :
  (f = None ∨ ∃ m, f = Some (Json (dump_db m)) ∧ master_active environ m) →
  startup_event environ utcnow_load utcnow (fresh_process f) = (s, None) →
  store_invariant environ s.
Proof.
  intros Hf. unfold startup_event.
  destruct Hf as [-> | (m & -> & Hm)].
  - cbn [load_keys_from_file print fresh_process api_key_file].
    intros [= <-]. apply ensure_master_invariant.
    simpl. rewrite any_master_empty. discriminate.
  - rewrite (load_dump _ m) by done. intros [= <-].
    apply ensure_master_invariant. intros _. split; [done |]. by exists m.
Qed.

Lemma handle_invariant environ r s :
  store_invariant environ s → store_invariant environ (handle environ r s).
Proof.
  intros [Hdb Hfile].
  destruct r as [k t u | a b tok u | a | a k | a k]; cbn [handle].
  - unfold get_api_key.
    destruct (api_keys_db s !! k) as [d0|] eqn:E; [| done].
    destruct (is_active d0) eqn:Ea; simpl; [| done].
    destruct (_ <=? _)%Z; simpl; [done |].
    split; [| done]. by apply master_active_insert.
  - unfold admin_route. destruct (is_master environ a); simpl; [| done].
    assert (master_active environ
              (<["ytapi_" +:+ tok
                 := {| key := "ytapi_" +:+ tok; owner := req_owner b;
                       requests_per_minute := req_requests_per_minute b;
                       is_active := true; total_requests := 0;
                       created_at := u; last_used := None |}]> (api_keys_db s)))
      by (by apply master_active_insert).
    split; [done |]. by eexists.
  - unfold admin_route. by destruct (is_master environ a).
  - unfold admin_route. destruct (is_master environ a); simpl; [| done].
    unfold toggle_api_key_status.
    destruct (api_keys_db s !! k) as [d0|]; [| done].
    destruct (String.eqb k (MASTER_API_KEY environ)) eqn:E; simpl; [done |].
    apply String.eqb_neq in E.
    assert (master_active environ
              (<[k := set_is_active (negb (is_active d0)) d0]> (api_keys_db s)))
      by (by apply master_active_insert).
    split; [done |]. by eexists.
  - unfold admin_route. destruct (is_master environ a); simpl; [| done].
    unfold delete_api_key.
    destruct (api_keys_db s !! k) as [d0|]; [| done].
    destruct (String.eqb k (MASTER_API_KEY environ)) eqn:E; simpl; [done |].
    apply String.eqb_neq in E.
    assert (master_active environ (delete k (api_keys_db s))).
    { destruct Hdb as (d & Hd & Ha). exists d. by rewrite lookup_delete_ne. }
    split; [done |]. by eexists.
Qed.

Lemma reachable_invariant environ s :
  reachable environ s → store_invariant environ s.
Proof.
  induction 1 as [ul u s Hs | s r _ IH | s _ IH | s ul u s' _ IH Hs].
  - apply (startup_invariant environ ul u None); [by left | done].
  - by apply handle_invariant.
  - destruct IH as [Hdb _]. split; [done |]. by eexists.
  - apply (startup_invariant environ ul u (api_key_file s)); [| done].
    right. apply IH.
Qed.

Lemma master_guard environ s :
  master_active environ (api_keys_db s) →
  toggle_api_key_status environ (MASTER_API_KEY environ) s
  = (Raise (HTTPException 400), s)
  ∧ delete_api_key environ (MASTER_API_KEY environ) s
    = (Raise (HTTPException 400), s).
Proof.
  intros (d & Hd & _). unfold toggle_api_key_status, delete_api_key.
  by rewrite Hd, String.eqb_refl.
Qed.

(** C3 (amended).  In every reachable state a record is stored under the
    configured master key and it is active, and every attempt of the
    administrator to toggle or to delete the master key is answered with
    400 and leaves the whole state, hence the master record, unchanged.
    The number of records whose owner is the text master is not fixed to
    one. *)
Theorem master_key_protected environ s :
  reachable environ s →
  master_active environ (api_keys_db s)
  ∧ admin_route environ (MASTER_API_KEY environ)
      (toggle_api_key_status environ (MASTER_API_KEY environ)) s
    = (Raise (HTTPException 400), s)
  ∧ admin_route environ (MASTER_API_KEY environ)
      (delete_api_key environ (MASTER_API_KEY environ)) s
    = (Raise (HTTPException 400), s).
Proof.
  intros Hr. destruct (reachable_invariant environ s Hr) as [Hdb _].
  split; [done |]. unfold admin_route. rewrite is_master_self.
  by apply master_guard.
Qed.

Lemma master_key_protected_witness :
  let s := (startup_event ∅ "t0" "t0" (fresh_process None)).1 in
  admin_route ∅ (MASTER_API_KEY ∅)
    (delete_api_key ∅ (MASTER_API_KEY ∅)) s
  = (Raise (HTTPException 400), s).
Proof.
  intros s.
  apply (master_key_protected ∅ s).
  apply (reach_boot ∅ "t0" "t0"). reflexivity.
Defined.

(** C3, as stated, fails: after the first start, generating a key for an
    owner named master gives a reachable store with two records whose
    owner is master. *)
Lemma two_master_owners_reachable :
  let s0 := (startup_event ∅ "t0" "t0" (fresh_process None)).1 in
  let s := handle ∅
             (Generate (MASTER_API_KEY ∅)
                {| req_owner := "master"; req_requests_per_minute := 10 |}
                "tok" "t1") s0 in
  reachable ∅ s ∧ length (masters (api_keys_db s)) = 2%nat.
Proof.
  intros s0 s. split.
  - apply reach_request. apply (reach_boot ∅ "t0" "t0"). reflexivity.
  - vm_compute. reflexivity.
Qed.

(** ** When the snapshot is written *)

Lemma get_api_key_file k now utcnow s :
  api_key_file (get_api_key k now utcnow s).2 = api_key_file s.
Proof.
  unfold get_api_key.
  destruct (api_keys_db s !! k) as [d|]; [| done].
  destruct (negb (is_active d)); [done |].
  by destruct (_ <=? _)%Z.
Qed.

(** C4 (amended).  Every change of the key store made by an admin request
    (generate, toggle, delete) and the creation of the master record at
    startup are followed by a write of the whole mapping to the snapshot
    file, and the shutdown hook writes it once more without changing the
    store.  The admission check never writes the file: the counter and
    last-use updates of an admitted request stay in memory until the next
    write. *)
Theorem snapshot_written_by_admin_mutations environ s :
  (∀ r, api_keys_db (handle environ r s) ≠ api_keys_db s →
     (∃ k t u, r = Admission k t u
               ∧ api_key_file (handle environ r s) = api_key_file s)
     ∨ snapshot_current (handle environ r s))
  ∧ (∀ k t u, api_key_file (get_api_key k t u s).2 = api_key_file s)
  ∧ (∀ master_key utcnow,
       api_keys_db (ensure_master master_key utcnow s) ≠ api_keys_db s →
       snapshot_current (ensure_master master_key utcnow s))
  ∧ snapshot_current (shutdown_event s)
  ∧ api_keys_db (shutdown_event s) = api_keys_db s.
Proof.
  split; [| split; [intros; apply get_api_key_file | split; [| done]]].
  - intros r Hne.
    destruct r as [k t u | a b tok u | a | a k | a k]; cbn [handle] in *.
    + left. exists k, t, u. split; [done | apply get_api_key_file].
    + right. revert Hne. unfold admin_route.
      by destruct (is_master environ a).
    + exfalso. apply Hne. unfold admin_route.
      by destruct (is_master environ a).
    + right. revert Hne. unfold admin_route, toggle_api_key_status.
      destruct (is_master environ a); [| done].
      destruct (api_keys_db s !! k); [| done].
      by destruct (String.eqb k (MASTER_API_KEY environ)).
    + right. revert Hne. unfold admin_route, delete_api_key.
      destruct (is_master environ a); [| done].
      destruct (api_keys_db s !! k); [| done].
      by destruct (String.eqb k (MASTER_API_KEY environ)).
  - intros mk u. unfold ensure_master.
    by destruct (any_master (api_keys_db s)).
Qed.

Lemma snapshot_written_by_admin_mutations_witness :
  let s0 := (startup_event ∅ "t0" "t0" (fresh_process None)).1 in
  let r := Generate (MASTER_API_KEY ∅)
             {| req_owner := "alice"; req_requests_per_minute := 5 |}
             "tok" "t1" in
  snapshot_current (handle ∅ r s0).
Proof.
  intros s0 r.
  destruct (proj1 (snapshot_written_by_admin_mutations ∅ s0) r) as [H | H].
  - intros E. apply (f_equal (λ m, m !! "ytapi_tok")) in E.
    vm_compute in E. discriminate.
  - destruct H as (k & t & u & E & _). discriminate.
  - exact H.
Defined.

(** C4, as stated, fails: an admitted request changes the stored record
    (counter and last use) and the snapshot file is not rewritten. *)
Lemma admission_does_not_write_snapshot :
  let s0 := (startup_event ∅ "t0" "t0" (fresh_process None)).1 in
  let s := handle ∅ (Admission (MASTER_API_KEY ∅) 0 "t1") s0 in
  reachable ∅ s
  ∧ api_keys_db s ≠ api_keys_db s0
  ∧ api_key_file s = api_key_file s0
  ∧ ¬ snapshot_current s.
Proof.
  intros s0 s. split.
  { apply reach_request. apply (reach_boot ∅ "t0" "t0"). reflexivity. }
  split.
  { intros E. apply (f_equal (λ m, total_requests <$> m !! MASTER_API_KEY ∅)) in E.
    vm_compute in E. discriminate. }
  split; [reflexivity |].
  unfold snapshot_current. intros E. vm_compute in E. discriminate.
Qed.

(** ** Loading a malformed snapshot *)

(** Text that is not JSON is recovered from: a warning is printed, the
    store is left as it was (empty in a new process) and nothing is
    raised. *)
Lemma load_not_json utcnow s :
  api_key_file s = Some NotJson →
  load_keys_from_file utcnow s = (print load_warning s, None).
Proof. intros H. unfold load_keys_from_file. by rewrite H. Qed.

Lemma startup_not_json environ utcnow_load utcnow :
  ∃ s, startup_event environ utcnow_load utcnow (fresh_process (Some NotJson))
       = (s, None)
       ∧ load_warning ∈ stdout s.
Proof.
  unfold startup_event. rewrite load_not_json by done.
  eexists. split; [done |].
  unfold ensure_master. simpl. rewrite any_master_empty. simpl.
  set_solver.
Qed.

(** C6, evaluated where it fails.  A snapshot holding the JSON array with
    no element makes the load, and with it the startup, end with an
    uncaught [AttributeError].  A snapshot whose first entry is a complete
    record and whose second entry is a number prints the warning about an
    empty key database and leaves the first record in the store.  A
    snapshot entry with no field makes the load and the startup end with
    an uncaught [ValidationError]. *)
Theorem load_malformed_snapshot_diverges :
  let d := {| key := "a"; owner := "alice"; requests_per_minute := 5;
              is_active := true; total_requests := 3;
              created_at := "c"; last_used := None |} in
  let s1 := fresh_process (Some (Json (JList []))) in
  let s2 := fresh_process (Some (Json (JDict [("a", dict d); ("b", JInt 5)]))) in
  let s3 := fresh_process (Some (Json (JDict [("a", JDict [])]))) in
  (load_keys_from_file "t" s1).2 = Some AttributeError
  ∧ (startup_event ∅ "t" "t" s1).2 = Some AttributeError
  ∧ load_keys_from_file "t" s2
    = (print load_warning (set_db {[ "a" := d ]} s2), None)
  ∧ api_keys_db (load_keys_from_file "t" s2).1 !! "a" = Some d
  ∧ (load_keys_from_file "t" s3).2 = Some ValidationError
  ∧ (startup_event ∅ "t" "t" s3).2 = Some ValidationError.
Proof.
  intros d s1 s2 s3. repeat split; reflexivity.
Qed.

(** ** The master record at startup *)

Lemma any_master_true (db : gmap string APIKeyData) :
  any_master db = true
  ↔ ∃ k d, db !! k = Some d ∧ owner d = "master" ∧ k ≠ "".
Proof.
  unfold any_master. rewrite existsb_exists. split.
  - intros (k & Hin & Ht). apply list_elem_of_In, list_elem_of_fmap in Hin.
    destruct Hin as ([k' d] & -> & Hin). apply list_elem_of_In, filter_In in Hin.
    destruct Hin as [Hin Ho]. apply list_elem_of_In, elem_of_map_to_list in Hin.
    exists k', d. simpl in *. split; [done |].
    split; [by apply String.eqb_eq |].
    unfold truthy in Ht. apply negb_true_iff in Ht. by apply String.eqb_neq.
  - intros (k & d & Hk & Ho & Hne). exists k. split.
    + apply list_elem_of_In, list_elem_of_fmap. exists (k, d). split; [done |].
      apply list_elem_of_In, filter_In. split.
      * by apply list_elem_of_In, elem_of_map_to_list.
      * by apply String.eqb_eq.
    + unfold truthy. apply negb_true_iff. by apply String.eqb_neq.
Qed.

(** With a master key that is not the empty text, the creation of the
    master record happens at most once. *)
Lemma ensure_master_idempotent master_key utcnow utcnow' s :
  master_key ≠ "" →
  ensure_master master_key utcnow' (ensure_master master_key utcnow s)
  = ensure_master master_key utcnow s.
Proof.
  intros Hne.
  assert (H : any_master (api_keys_db (ensure_master master_key utcnow s)) = true).
  { unfold ensure_master. destruct (any_master (api_keys_db s)) eqn:E; [done |].
    simpl. apply any_master_true.
    exists master_key, (master_record master_key utcnow).
    by rewrite lookup_insert_eq. }
  unfold ensure_master at 1. by rewrite H.
Qed.

Lemma ensure_master_present master_key utcnow s k d :
  api_keys_db s !! k = Some d → owner d = "master" → k ≠ "" →
  ensure_master master_key utcnow s = s.
Proof.
  intros Hk Ho Hne. unfold ensure_master.
  assert (H : any_master (api_keys_db s) = true)
    by (apply any_master_true; eauto).
  by rewrite H.
Qed.

(** C9, evaluated where it fails.  With the master key configured as the
    empty text, a store that already holds the master record under that
    key is not recognised as having one: the existence test of line 163
    is false, the record is replaced by a new one (its request counter
    and last use are lost), the snapshot is written and the line about
    the configured master key is printed again. *)
Theorem ensure_master_empty_key_recreates :
  let old := {| key := ""; owner := "master"; requests_per_minute := 100;
                is_active := true; total_requests := 7;
                created_at := "t0"; last_used := Some "t1" |} in
  let s := {| api_keys_db := {[ "" := old ]}; rate_limit_tracker := ∅;
              api_key_file := Some (Json (dump_db {[ "" := old ]}));
              stdout := [] |} in
  let s' := ensure_master (MASTER_API_KEY {[ "MASTER_API_KEY" := "" ]}) "t2" s in
  masters (api_keys_db s) = [("", old)]
  ∧ any_master (api_keys_db s) = false
  ∧ api_keys_db s' !! "" = Some (master_record "" "t2")
  ∧ api_keys_db s' ≠ api_keys_db s
  ∧ api_key_file s' ≠ api_key_file s
  ∧ stdout s' = ["Master API key has been configured."].
Proof.
  intros old s s'.
  split; [reflexivity |]. split; [reflexivity |]. split; [reflexivity |].
  split.
  { intros E. apply (f_equal (λ m, total_requests <$> m !! "")) in E.
    vm_compute in E. discriminate. }
  split; [| reflexivity].
  intros E. vm_compute in E. discriminate.
Qed.

(** ** The sweep of the reaper *)

Lemma expired_true now f :
  expired now f = true
  ↔ isfile f = true ∧ Qlt_bool (st_mtime f) (now - MAX_FILE_AGE_SECONDS) = true.
Proof. unfold expired. apply andb_true_iff. Qed.

Lemma expired_older now f :
  expired now f = true
  ↔ isfile f = true ∧ (st_mtime f < now - 3600)%Q.
Proof. rewrite expired_true, Qlt_bool_true. done. Qed.

Lemma sweep_files_spec now names :
  ∀ dir out dir' out' e,
    sweep_files now names dir out = (dir', out', e) →
    (∀ n, dir' !! n = dir !! n
          ∨ (dir' !! n = None ∧ n ∈ names
             ∧ ∃ f, dir !! n = Some f ∧ expired now f = true
                    ∧ remove_error f = None))
    ∧ (e = None → ∀ n f, n ∈ names → dir !! n = Some f →
                   expired now f = true → dir' !! n = None).
Proof.
  induction names as [|x rest IH]; intros dir out dir' out' e; simpl.
  { intros [= <- <- <-]. split; [by left |]. intros _ n f Hn. by apply elem_of_nil in Hn. }
  assert (Hskip : sweep_files now rest dir out = (dir', out', e) →
                  (∀ f, dir !! x = Some f → expired now f = false) →
                  (∀ n, dir' !! n = dir !! n
                        ∨ (dir' !! n = None ∧ n ∈ x :: rest
                           ∧ ∃ f, dir !! n = Some f ∧ expired now f = true
                                  ∧ remove_error f = None))
                  ∧ (e = None → ∀ n f, n ∈ x :: rest → dir !! n = Some f →
                                 expired now f = true → dir' !! n = None)).
  { intros Hs Hx. destruct (IH _ _ _ _ _ Hs) as [H1 H2]. split.
    - intros n. destruct (H1 n) as [?|(? & ? & ?)]; [by left |].
      right. split; [done |]. split; [by apply elem_of_cons; right | done].
    - intros He n f Hn Hf Hexp. apply elem_of_cons in Hn as [-> | Hn].
      + rewrite (Hx f Hf) in Hexp. discriminate.
      + by apply (H2 He n f). }
  destruct (dir !! x) as [f|] eqn:Hx; [| intros Hs; apply Hskip; [done | discriminate]].
  destruct (isfile f) eqn:Hf;
    [| intros Hs; apply Hskip; [done |]; intros ? [= <-]; unfold expired; by rewrite Hf].
  destruct (Qlt_bool (st_mtime f) (now - MAX_FILE_AGE_SECONDS)) eqn:Hold;
    [| intros Hs; apply Hskip; [done |]; intros ? [= <-]; unfold expired;
       by rewrite Hf, Hold].
  assert (Hexp : expired now f = true) by (unfold expired; by rewrite Hf, Hold).
  destruct (remove_error f) as [msg|] eqn:Hrm.
  { intros [= <- <- <-]. split; [by left | discriminate]. }
  intros Hs. destruct (IH _ _ _ _ _ Hs) as [H1 H2].
  assert (Hxd : dir' !! x = None).
  { destruct (H1 x) as [E | [E _]]; [| done]. by rewrite E, lookup_delete_eq. }
  split.
  - intros n. destruct (decide (n = x)) as [-> | Hne].
    + right. split; [done |]. split; [by apply elem_of_cons; left |]. eauto.
    + destruct (H1 n) as [E | (E & Hn & g & Hg & ?)].
      * left. by rewrite E, lookup_delete_ne.
      * right. split; [done |]. split; [by apply elem_of_cons; right |].
        exists g. by rewrite lookup_delete_ne in Hg.
  - intros He n g Hn Hg Hgexp. destruct (decide (n = x)) as [-> | Hne]; [done |].
    apply elem_of_cons in Hn as [? | Hn]; [done |].
    apply (H2 He n g); [done | by rewrite lookup_delete_ne | done].
Qed.

Lemma sweep_files_no_failure now names :
  ∀ dir out,
    (∀ n f, n ∈ names → dir !! n = Some f → expired now f = true →
            remove_error f = None) →
    ∃ dir' out', sweep_files now names dir out = (dir', out', None).
Proof.
  induction names as [|x rest IH]; intros dir out Hok; simpl; [by eauto |].
  assert (Hrest : ∀ n f, n ∈ rest → dir !! n = Some f → expired now f = true →
                         remove_error f = None).
  { intros n f Hn. apply Hok. by apply elem_of_cons; right. }
  destruct (dir !! x) as [f|] eqn:Hx; [| by apply IH].
  destruct (isfile f) eqn:Hf; [| by apply IH].
  destruct (Qlt_bool _ _) eqn:Hold; [| by apply IH].
  rewrite (Hok x f); [| by apply elem_of_cons; left | done
                      | unfold expired; by rewrite Hf, Hold].
  apply IH. intros n g Hn Hg. apply (Hrest n g Hn).
  destruct (decide (x = n)) as [-> | Hne].
  - by rewrite lookup_delete_eq in Hg.
  - by rewrite lookup_delete_ne in Hg.
Qed.

Lemma sweep_files_app now pre post :
  ∀ dir out,
    sweep_files now (pre ++ post) dir out
    = match sweep_files now pre dir out with
      | (d, o, None) => sweep_files now post d o
      | r => r
      end.
Proof.
  induction pre as [|x pre IH]; intros dir out; simpl; [done |].
  destruct (dir !! x) as [f|]; [| apply IH].
  destruct (isfile f); [| apply IH].
  destruct (Qlt_bool _ _); [| apply IH].
  destruct (remove_error f); [done | apply IH].
Qed.

Lemma sweep_files_no_expired now names :
  ∀ dir out,
    (∀ n f, dir !! n = Some f → expired now f = false) →
    sweep_files now names dir out = (dir, out, None).
Proof.
  induction names as [|x rest IH]; intros dir out Hno; simpl; [done |].
  destruct (dir !! x) as [f|] eqn:Hx; [| by apply IH].
  pose proof (Hno x f Hx) as Hf. unfold expired in Hf.
  destruct (isfile f); [| by apply IH].
  simpl in Hf. rewrite Hf. by apply IH.
Qed.

Lemma cleanup_sweep_dir now names dir out :
  (cleanup_sweep now names dir out).1 = (sweep_files now names dir out).1.1.
Proof.
  unfold cleanup_sweep.
  destruct (sweep_files now names dir out) as [[d o] [e|]]; [| done].
  by destruct e.
Qed.

Lemma listing_two (a b : string) (x y : dirent) :
  listing_of {[ a := x; b := y ]} [a; b].
Proof.
  intros n. rewrite !elem_of_cons, elem_of_nil. split.
  - intros [-> | [-> | []]].
    + rewrite lookup_insert_eq. by eexists.
    + destruct (decide (a = b)) as [-> | Hne].
      * rewrite lookup_insert_eq. by eexists.
      * rewrite lookup_insert_ne, lookup_singleton_eq by done. by eexists.
  - intros [f Hf].
    destruct (decide (n = a)) as [-> | H1]; [by left |].
    destruct (decide (n = b)) as [-> | H2]; [by right; left |].
    rewrite lookup_insert_ne, lookup_singleton_ne in Hf by done.
    discriminate.
Qed.

(** C5 (amended).  A sweep visits the listed names in order.  A file that
    is not a regular file older than the maximum age is left as it is,
    and nothing is created or altered.  When no removal fails, every
    regular file older than the maximum age is deleted.  When a removal
    fails, the sweep ends there: the old files listed before the failing
    one are deleted, every entry not listed before it is left as it is
    (old files listed after it included), and one error line is printed.
    A sweep over a directory with no old regular file changes nothing and
    prints nothing. *)
Theorem sweep_stops_at_first_failure now names dir out :
  listing_of dir names →
  let r := cleanup_sweep now names dir out in
  (∀ n f, dir !! n = Some f → expired now f = false → r.1 !! n = Some f)
  ∧ (∀ n, r.1 !! n = dir !! n ∨ r.1 !! n = None)
  ∧ ((∀ n f, dir !! n = Some f → expired now f = true → remove_error f = None) →
     ∀ n f, dir !! n = Some f → expired now f = true → r.1 !! n = None)
  ∧ (∀ pre n post f msg,
       names = pre ++ n :: post →
       dir !! n = Some f → expired now f = true → remove_error f = Some msg →
       (∀ m g, m ∈ pre → dir !! m = Some g → expired now g = true →
               remove_error g = None) →
       (∀ m g, m ∈ pre → dir !! m = Some g → expired now g = true →
               r.1 !! m = None)
       ∧ (∀ m, m ∉ pre → r.1 !! m = dir !! m)
       ∧ last r.2 = Some ("Error during file cleanup: " +:+ msg))
  ∧ ((∀ n f, dir !! n = Some f → expired now f = false) → r = (dir, out)).
Proof.
  intros Hl r.
  assert (Hr1 : r.1 = (sweep_files now names dir out).1.1)
    by apply cleanup_sweep_dir.
  destruct (sweep_files now names dir out) as [[d' o'] e] eqn:Hs.
  destruct (sweep_files_spec now names _ _ _ _ _ Hs) as [H1 H2].
  simpl in Hr1. split; [| split; [| split; [| split]]].
  - intros n f Hn Hexp. rewrite Hr1.
    destruct (H1 n) as [E | (_ & _ & g & Hg & Hgexp & _)]; [congruence |].
    congruence.
  - intros n. rewrite Hr1. destruct (H1 n) as [E | (E & _)]; auto.
  - intros Hok n f Hn Hexp. rewrite Hr1.
    destruct (sweep_files_no_failure now names dir out) as (d2 & o2 & E).
    { intros m g _. apply Hok. }
    rewrite E in Hs. injection Hs as <- <- <-.
    apply (H2 eq_refl n f); [| done | done]. apply Hl. by eexists.
  - intros pre n post f msg -> Hn Hexp Hrm Hpre.
    destruct (sweep_files_no_failure now pre dir out Hpre) as (d1 & o1 & E1).
    destruct (sweep_files_spec now pre _ _ _ _ _ E1) as [P1 P2].
    assert (Hn1 : d1 !! n = Some f).
    { destruct (P1 n) as [E | (_ & Hin & g & Hg & Hgexp & Hgrm)]; [congruence |].
      congruence. }
    apply expired_true in Hexp as [Hf Hold].
    assert (E : sweep_files now (pre ++ n :: post) dir out
                = (d1, o1, Some (OSError msg))).
    { rewrite sweep_files_app, E1. simpl. by rewrite Hn1, Hf, Hold, Hrm. }
    subst r. unfold cleanup_sweep. rewrite E. simpl.
    split; [intros m g Hm Hg Hgexp; by apply (P2 eq_refl m g) |].
    split; [| apply last_snoc].
    intros m Hm. destruct (P1 m) as [? | (_ & ? & _)]; done.
  - intros Hno. subst r. unfold cleanup_sweep.
    by rewrite (sweep_files_no_expired now names dir out Hno).
Qed.

Lemma sweep_stops_at_first_failure_witness :
  let old := {| isfile := true; st_mtime := 100; remove_error := None |} in
  let new := {| isfile := true; st_mtime := 9000; remove_error := None |} in
  let dir : gmap string dirent := {[ "old.mp4" := old; "new.mp4" := new ]} in
  let r := cleanup_sweep 10000 ["old.mp4"; "new.mp4"] dir [] in
  r.1 !! "new.mp4" = Some new.
Proof.
  intros old new dir r.
  apply (λ Hl, proj1 (sweep_stops_at_first_failure 10000
                        ["old.mp4"; "new.mp4"] dir [] Hl)).
  - apply listing_two.
  - reflexivity.
  - reflexivity.
Defined.

(** C5, as stated, fails: when the removal of one old file fails, an old
    file listed after it is not deleted in that sweep. *)
Lemma failed_removal_ends_sweep :
  let locked := {| isfile := true; st_mtime := 100;
                   remove_error := Some "Permission denied" |} in
  let old := {| isfile := true; st_mtime := 200; remove_error := None |} in
  let dir : gmap string dirent := {[ "a.mp4" := locked; "b.mp4" := old ]} in
  let r := cleanup_sweep 10000 ["a.mp4"; "b.mp4"] dir [] in
  listing_of dir ["a.mp4"; "b.mp4"]
  ∧ expired 10000 old = true
  ∧ remove_error old = None
  ∧ r.1 !! "b.mp4" = Some old
  ∧ r.2 = ["Error during file cleanup: Permission denied"].
Proof.
  intros locked old dir r. split.
  { apply listing_two. }
  repeat split; reflexivity.
Qed.

(** * Further properties of the code *)

(** ** The window kept by the admission check *)

Lemma recent_Forall now w : Forall (λ t, (now - t < 60)%Q) (recent now w).
Proof.
  apply Forall_forall. intros t Ht. apply list_elem_of_In, recent_spec in Ht.
  destruct Ht as [_ Ht]. lra.
Qed.

Lemma recent_app now w1 w2 :
  recent now (w1 ++ w2) = recent now w1 ++ recent now w2.
Proof. unfold recent. apply List.filter_app. Qed.

Lemma recent_none now w :
  Forall (λ t, (60 <= now - t)%Q) w → recent now w = [].
Proof.
  unfold recent. induction 1 as [|t w Ht _ IH]; simpl; [done |].
  apply Qlt_bool_false in Ht. by rewrite Ht.
Qed.

(** X1.  After the admission check of a stored, active key, whether it
    admits or answers 429, the window stored for that key holds only
    timestamps less than 60 seconds old; after an admission it holds at
    most as many timestamps as the quota. *)
Theorem window_after_check k now utcnow s d :
  api_keys_db s !! k = Some d → is_active d = true →
  ∃ w, rate_limit_tracker (get_api_key k now utcnow s).2 !! k = Some w
       ∧ Forall (λ t, (now - t < 60)%Q) w
       ∧ (admitted (get_api_key k now utcnow s).1 = true →
          (Z.of_nat (length w) ≤ requests_per_minute d)%Z).
Proof.
  intros Hk Hd. unfold get_api_key. rewrite Hk, Hd. simpl.
  destruct (_ <=? _)%Z eqn:Hq; simpl; rewrite lookup_insert_eq; eexists;
    (split; [done |]).
  - split; [apply recent_Forall | discriminate].
  - apply Z.leb_gt in Hq. split.
    + apply Forall_app. split; [apply recent_Forall |].
      repeat constructor. lra.
    + intros _. rewrite length_app. simpl. lia.
Qed.

Lemma window_after_check_witness :
  let d := {| key := "k1"; owner := "alice"; requests_per_minute := 2;
              is_active := true; total_requests := 0;
              created_at := "c"; last_used := None |} in
  let s := {| api_keys_db := {[ "k1" := d ]};
              rate_limit_tracker := {[ "k1" := [1%Q; 70%Q] ]};
              api_key_file := None; stdout := [] |} in
  ∃ w, rate_limit_tracker (get_api_key "k1" 100 "u" s).2 !! "k1" = Some w
       ∧ Forall (λ t, (100 - t < 60)%Q) w
       ∧ (admitted (get_api_key "k1" 100 "u" s).1 = true →
          (Z.of_nat (length w) ≤ 2)%Z).
Proof.
  intros d s. apply (window_after_check "k1" 100 "u" s d).
  - reflexivity.
  - reflexivity.
Defined.

(** X2.  A stored, active key with a quota of at least one is admitted as
    soon as every timestamp of its window is 60 seconds old or older (a
    timestamp exactly 60 seconds old no longer counts); the window then
    holds the current time alone. *)
Theorem admitted_after_window_elapsed k now utcnow s d :
  api_keys_db s !! k = Some d → is_active d = true →
  (1 ≤ requests_per_minute d)%Z →
  Forall (λ t, (60 <= now - t)%Q) (default [] (rate_limit_tracker s !! k)) →
  get_api_key k now utcnow s
  = (Return (record_use utcnow d),
     set_db (<[k := record_use utcnow d]> (api_keys_db s))
       (set_tracker (<[k := [now]]> (rate_limit_tracker s)) s)).
Proof.
  intros Hk Hd Hq Hw.
  rewrite (get_api_key_admitted k now utcnow s d Hk Hd);
    rewrite (recent_none now _ Hw); [done | simpl; lia].
Qed.

Lemma admitted_after_window_elapsed_witness :
  let d := {| key := "k1"; owner := "alice"; requests_per_minute := 1;
              is_active := true; total_requests := 1;
              created_at := "c"; last_used := Some "a" |} in
  let s := {| api_keys_db := {[ "k1" := d ]};
              rate_limit_tracker := {[ "k1" := [40%Q] ]};
              api_key_file := None; stdout := [] |} in
  (get_api_key "k1" 100 "u" s).1 = Return (record_use "u" d).
Proof.
  intros d s.
  rewrite (admitted_after_window_elapsed "k1" 100 "u" s d).
  - reflexivity.
  - reflexivity.
  - reflexivity.
  - vm_compute. discriminate.
  - repeat constructor. vm_compute. discriminate.
Defined.

(** X3.  The admission check of one key, whatever its outcome, leaves the
    record and the window of every other key, the snapshot file and the
    printed lines as they were. *)
Theorem admission_touches_one_key k k' now utcnow s :
  k' ≠ k →
  api_keys_db (get_api_key k now utcnow s).2 !! k' = api_keys_db s !! k'
  ∧ rate_limit_tracker (get_api_key k now utcnow s).2 !! k'
    = rate_limit_tracker s !! k'
  ∧ api_key_file (get_api_key k now utcnow s).2 = api_key_file s
  ∧ stdout (get_api_key k now utcnow s).2 = stdout s.
Proof.
  intros Hne. unfold get_api_key.
  destruct (api_keys_db s !! k) as [d|]; [| done].
  destruct (negb (is_active d)); [done |].
  destruct (_ <=? _)%Z; simpl; by rewrite ?lookup_insert_ne.
Qed.

Lemma admission_touches_one_key_witness :
  let d1 := {| key := "k1"; owner := "alice"; requests_per_minute := 2;
               is_active := true; total_requests := 0;
               created_at := "c"; last_used := None |} in
  let d2 := {| key := "k2"; owner := "bob"; requests_per_minute := 1;
               is_active := true; total_requests := 5;
               created_at := "c"; last_used := None |} in
  let s := {| api_keys_db := {[ "k1" := d1; "k2" := d2 ]};
              rate_limit_tracker := {[ "k2" := [3%Q] ]};
              api_key_file := None; stdout := [] |} in
  api_keys_db (get_api_key "k1" 4 "u" s).2 !! "k2" = Some d2.
Proof.
  intros d1 d2 s.
  rewrite (proj1 (admission_touches_one_key "k1" "k2" 4 "u" s
                    ltac:(discriminate))).
  reflexivity.
Defined.

(** ** Successive admissions *)

Lemma get_api_key_record k now utcnow s d :
  api_keys_db s !! k = Some d →
  ((get_api_key k now utcnow s).1 = Return (record_use utcnow d)
   ∧ api_keys_db (get_api_key k now utcnow s).2 !! k
     = Some (record_use utcnow d))
  ∨ (admitted (get_api_key k now utcnow s).1 = false
     ∧ api_keys_db (get_api_key k now utcnow s).2 !! k = Some d).
Proof.
  intros Hk. unfold get_api_key. rewrite Hk.
  destruct (negb (is_active d)); [by right |].
  destruct (_ <=? _)%Z; simpl; [by right |].
  left. by rewrite lookup_insert_eq.
Qed.

(** X4.  Over any run of admission checks of a stored key, the request
    counter of its record grows by exactly the number of checks that
    admitted; the owner, the quota, the active flag and the creation time
    of the record do not change. *)
Theorem counter_counts_admissions k calls :
  ∀ s d, api_keys_db s !! k = Some d →
    ∃ d', api_keys_db (admit_each k calls s).2 !! k = Some d'
          ∧ total_requests d'
            = (total_requests d
               + Z.of_nat (count_admitted (admit_each k calls s).1))%Z
          ∧ owner d' = owner d
          ∧ requests_per_minute d' = requests_per_minute d
          ∧ is_active d' = is_active d
          ∧ created_at d' = created_at d.
Proof.
  induction calls as [|[t u] calls IH]; intros s d Hk.
  { exists d. simpl. unfold count_admitted. simpl.
    rewrite Z.add_0_r. done. }
  cbn [admit_each fst snd].
  destruct (get_api_key_record k t u s d Hk) as [[Ho Hs] | [Ho Hs]].
  - destruct (IH _ _ Hs) as (d' & Hd' & Ht & Hw & Hr & Ha & Hc).
    exists d'. split; [done |]. rewrite Ht, Hw, Hr, Ha, Hc, Ho.
    unfold count_admitted. simpl. repeat split. lia.
  - destruct (IH _ _ Hs) as (d' & Hd' & Ht & Hw & Hr & Ha & Hc).
    exists d'. split; [done |]. rewrite Ht.
    unfold count_admitted. simpl. rewrite Ho. done.
Qed.

Lemma counter_counts_admissions_witness :
  let d := {| key := "k1"; owner := "alice"; requests_per_minute := 2;
              is_active := true; total_requests := 10;
              created_at := "c"; last_used := None |} in
  let s := {| api_keys_db := {[ "k1" := d ]};
              rate_limit_tracker := ∅; api_key_file := None; stdout := [] |} in
  let calls := [(0%Q, "a"); (1%Q, "b"); (2%Q, "c")] in
  ∃ d', api_keys_db (admit_each "k1" calls s).2 !! "k1" = Some d'
        ∧ total_requests d'
          = (10 + Z.of_nat (count_admitted (admit_each "k1" calls s).1))%Z
        ∧ owner d' = "alice"
        ∧ requests_per_minute d' = 2%Z
        ∧ is_active d' = true
        ∧ created_at d' = "c".
Proof.
  intros d s calls.
  apply (counter_counts_admissions "k1" calls s d). reflexivity.
Defined.

Lemma burst_bound k lo calls :
  ∀ s d old adm,
    api_keys_db s !! k = Some d →
    default [] (rate_limit_tracker s !! k) = old ++ adm →
    Forall (λ t, (lo <= t)%Q) adm →
    Forall (λ c : Q * string, (lo <= c.1)%Q ∧ (c.1 < lo + 60)%Q) calls →
    (Z.of_nat (length adm) ≤ Z.max 0 (requests_per_minute d))%Z →
    (Z.of_nat (length adm + count_admitted (admit_each k calls s).1)
       ≤ Z.max 0 (requests_per_minute d))%Z.
Proof.
  induction calls as [|[t u] calls IH]; intros s d old adm Hk Hw Hadm Hcalls Hlen.
  { simpl. unfold count_admitted. simpl. by rewrite Nat.add_0_r. }
  apply Forall_cons in Hcalls as [[Hlo Hhi] Hcalls]. simpl in Hlo, Hhi.
  assert (Hrec : recent t (old ++ adm) = recent t old ++ adm).
  { rewrite recent_app. f_equal. apply recent_all.
    eapply Forall_impl; [exact Hadm |]. intros a Ha. simpl in Ha. lra. }
  cbn [admit_each fst snd].
  destruct (is_active d) eqn:Ha.
  2:{ rewrite (get_api_key_inactive k t u s d Hk Ha).
      unfold count_admitted. simpl. by apply (IH s d old adm). }
  destruct (Z_le_gt_dec (requests_per_minute d)
              (Z.of_nat (length (recent t (default [] (rate_limit_tracker s !! k))))))
    as [Hq | Hq].
  - rewrite (get_api_key_throttled k t u s d Hk Ha Hq).
    unfold count_admitted. simpl. rewrite Hw, Hrec.
    apply (IH _ d (recent t old) adm); simpl; try done.
    by rewrite lookup_insert_eq.
  - rewrite (get_api_key_admitted k t u s d Hk Ha) by lia.
    unfold count_admitted. simpl. rewrite Hw, Hrec.
    rewrite Hw, Hrec, length_app in Hq.
    pose proof (IH (set_db (<[k := record_use u d]> (api_keys_db s))
                      (set_tracker
                         (<[k := (recent t old ++ adm) ++ [t]]>
                            (rate_limit_tracker s)) s))
                  (record_use u d) (recent t old) (adm ++ [t])) as IH'.
    unfold count_admitted in IH'. rewrite length_app in IH'. simpl in IH'.
    rewrite lookup_insert_eq in IH'. simpl in IH'.
    replace (length adm + S (length (List.filter admitted
               (admit_each k calls
                  (set_db (<[k := record_use u d]> (api_keys_db s))
                     (set_tracker
                        (<[k := (recent t old ++ adm) ++ [t]]>
                           (rate_limit_tracker s)) s))).1)))%nat
      with (length adm + 1
            + length (List.filter admitted
                (admit_each k calls
                   (set_db (<[k := record_use u d]> (api_keys_db s))
                      (set_tracker
                         (<[k := (recent t old ++ adm) ++ [t]]>
                            (rate_limit_tracker s)) s))).1))%nat by lia.
    apply IH';
      [ done
      | rewrite lookup_insert_eq; simpl; by rewrite app_assoc
      | apply Forall_app; split; [done | by repeat constructor]
      | done
      | lia ].
Qed.

(** X5.  Among any admission checks of a stored key whose times all lie
    in one interval shorter than 60 seconds, in whatever order, at most
    as many are admitted as the quota of the key (none when the quota is
    not positive), whatever the window held before. *)
Theorem at_most_quota_per_window k lo calls s d :
  api_keys_db s !! k = Some d →
  Forall (λ c : Q * string, (lo <= c.1)%Q ∧ (c.1 < lo + 60)%Q) calls →
  (Z.of_nat (count_admitted (admit_each k calls s).1)
     ≤ Z.max 0 (requests_per_minute d))%Z.
Proof.
  intros Hk Hcalls.
  apply (burst_bound k lo calls s d
           (default [] (rate_limit_tracker s !! k)) []); try done.
  - by rewrite app_nil_r.
  - simpl. lia.
Qed.

Lemma at_most_quota_per_window_witness :
  let d := {| key := "k1"; owner := "alice"; requests_per_minute := 2;
              is_active := true; total_requests := 0;
              created_at := "c"; last_used := None |} in
  let s := {| api_keys_db := {[ "k1" := d ]};
              rate_limit_tracker := ∅; api_key_file := None; stdout := [] |} in
  let calls := [(0%Q, "a"); (30%Q, "b"); (59%Q, "c"); (10%Q, "e")] in
  (Z.of_nat (count_admitted (admit_each "k1" calls s).1) ≤ Z.max 0 2)%Z.
Proof.
  intros d s calls.
  apply (at_most_quota_per_window "k1" 0 calls s d).
  - reflexivity.
  - repeat constructor; vm_compute; discriminate.
Defined.

(** ** The admin routes *)

(** X6.  A presented key other than the configured master key is refused
    with 403 by every admin route before its handler runs, whether or not
    that key is stored or active: no admin request made with it changes
    the state. *)
Theorem admin_refuses_other_keys environ api_key s :
  api_key ≠ MASTER_API_KEY environ →
  (∀ handler,
     admin_route environ api_key handler s = (Raise (HTTPException 403), s))
  ∧ (∀ body token utcnow,
       handle environ (Generate api_key body token utcnow) s = s)
  ∧ handle environ (ListKeys api_key) s = s
  ∧ (∀ k, handle environ (Toggle api_key k) s = s)
  ∧ (∀ k, handle environ (Delete api_key k) s = s).
Proof.
  intros Hne.
  assert (H : ∀ handler,
            admin_route environ api_key handler s
            = (Raise (HTTPException 403), s)).
  { intros handler. unfold admin_route, is_master.
    apply String.eqb_neq in Hne. by rewrite Hne. }
  split; [done |].
  repeat split; intros; cbn [handle]; by rewrite H.
Qed.

Lemma admin_refuses_other_keys_witness :
  let d := {| key := "k1"; owner := "alice"; requests_per_minute := 2;
              is_active := true; total_requests := 0;
              created_at := "c"; last_used := None |} in
  let s := {| api_keys_db := {[ "k1" := d ]};
              rate_limit_tracker := ∅; api_key_file := None; stdout := [] |} in
  handle ∅ (Delete "k1" "k1") s = s.
Proof.
  intros d s.
  assert (Hne : "k1" ≠ MASTER_API_KEY ∅) by (vm_compute; discriminate).
  apply (proj2 (proj2 (proj2 (proj2
           (admin_refuses_other_keys ∅ "k1" s Hne))))).
Defined.

(** X7.  A generation request made with the master key stores, under the
    text ytapi_ followed by the token, a record with the requested owner
    and quota that is active, has a zero counter and no last use; it
    returns that record, leaves every other record and all windows as
    they were, the listing made afterwards contains the record, and,
    when no window was stored for the new key and the quota is at least
    one, the new key is admitted at once. *)
Theorem generated_key_usable environ body token utcnow s :
  let new_key := "ytapi_" +:+ token in
  let r := admin_route environ (MASTER_API_KEY environ)
             (generate_api_key body token utcnow) s in
  let d := {| key := new_key; owner := req_owner body;
              requests_per_minute := req_requests_per_minute body;
              is_active := true; total_requests := 0;
              created_at := utcnow; last_used := None |} in
  r.1 = Return (RespKey d)
  ∧ api_keys_db r.2 !! new_key = Some d
  ∧ (∀ k, k ≠ new_key → api_keys_db r.2 !! k = api_keys_db s !! k)
  ∧ rate_limit_tracker r.2 = rate_limit_tracker s
  ∧ (∃ ds, (list_api_keys r.2).1 = Return (RespKeys ds) ∧ d ∈ ds)
  ∧ (rate_limit_tracker s !! new_key = None →
     (1 ≤ req_requests_per_minute body)%Z →
     ∀ now utcnow',
       (get_api_key new_key now utcnow' r.2).1 = Return (record_use utcnow' d)).
Proof.
  intros new_key r d. subst r. unfold admin_route. rewrite is_master_self.
  unfold generate_api_key. cbn [fst snd].
  fold new_key. fold d.
  assert (Hd : api_keys_db
                 (save_keys_to_file
                    (set_db (<[new_key := d]> (api_keys_db s)) s)) !! new_key
               = Some d) by (simpl; by rewrite lookup_insert_eq).
  split; [done |]. split; [done |].
  split; [intros k Hk; simpl; by rewrite lookup_insert_ne |].
  split; [done |]. split.
  - eexists. split; [done |].
    apply list_elem_of_fmap. exists (new_key, d). split; [done |].
    by apply elem_of_map_to_list.
  - intros Hw Hq now u'.
    rewrite (get_api_key_admitted new_key now u' _ d Hd eq_refl); [done |].
    simpl. rewrite Hw. simpl. unfold recent. simpl. lia.
Qed.

Lemma generated_key_usable_witness :
  let s := (startup_event ∅ "t0" "t0" (fresh_process None)).1 in
  let body := {| req_owner := "alice"; req_requests_per_minute := 5 |} in
  let r := admin_route ∅ (MASTER_API_KEY ∅)
             (generate_api_key body "tok" "t1") s in
  (get_api_key "ytapi_tok" 3 "t2" r.2).1
  = Return {| key := "ytapi_tok"; owner := "alice"; requests_per_minute := 5;
              is_active := true; total_requests := 1;
              created_at := "t1"; last_used := Some "t2" |}.
Proof.
  intros s body r.
  apply (proj2 (proj2 (proj2 (proj2 (proj2
           (generated_key_usable ∅ body "tok" "t1" s)))))).
  - reflexivity.
  - vm_compute. discriminate.
Defined.

Lemma set_is_active_twice b d :
  set_is_active (negb (negb (is_active d))) (set_is_active b d) = d.
Proof. destruct d as [? ? ? a ? ? ?]. simpl. by rewrite negb_involutive. Qed.

(** X8.  Toggling a stored key other than the master key flips its
    active flag and nothing else in the store; toggling it a second time
    gives back the store as it was, with the windows untouched and the
    snapshot file holding that store. *)
Theorem toggle_twice_restores environ k s d :
  api_keys_db s !! k = Some d → k ≠ MASTER_API_KEY environ →
  let s1 := (toggle_api_key_status environ k s).2 in
  let s2 := (toggle_api_key_status environ k s1).2 in
  api_keys_db s1 = <[k := set_is_active (negb (is_active d)) d]> (api_keys_db s)
  ∧ api_keys_db s2 = api_keys_db s
  ∧ rate_limit_tracker s2 = rate_limit_tracker s
  ∧ snapshot_current s2.
Proof.
  intros Hk Hne s1 s2. apply String.eqb_neq in Hne.
  assert (E1 : s1 = save_keys_to_file
                      (set_db (<[k := set_is_active (negb (is_active d)) d]>
                                 (api_keys_db s)) s)).
  { subst s1. unfold toggle_api_key_status. by rewrite Hk, Hne. }
  assert (E2 : s2 = save_keys_to_file
                      (set_db
                         (<[k := set_is_active
                                   (negb (is_active
                                            (set_is_active (negb (is_active d)) d)))
                                   (set_is_active (negb (is_active d)) d)]>
                            (api_keys_db s1)) s1)).
  { subst s2. unfold toggle_api_key_status.
    rewrite E1 at 1 2. simpl. rewrite lookup_insert_eq, Hne. by rewrite E1. }
  split; [by rewrite E1 |].
  assert (Hdb : api_keys_db s2 = api_keys_db s).
  { rewrite E2, E1. simpl. rewrite insert_insert_eq.
    rewrite set_is_active_twice. by apply insert_id. }
  split; [done |]. split; [by rewrite E2, E1 |].
  unfold snapshot_current. rewrite E2. simpl. done.
Qed.

Lemma toggle_twice_restores_witness :
  let d := {| key := "k1"; owner := "alice"; requests_per_minute := 2;
              is_active := true; total_requests := 4;
              created_at := "c"; last_used := None |} in
  let s := {| api_keys_db := {[ "k1" := d ]};
              rate_limit_tracker := ∅; api_key_file := None; stdout := [] |} in
  api_keys_db
    (toggle_api_key_status ∅ "k1" (toggle_api_key_status ∅ "k1" s).2).2
  = api_keys_db s.
Proof.
  intros d s.
  apply (toggle_twice_restores ∅ "k1" s d).
  - reflexivity.
  - vm_compute. discriminate.
Defined.

(** X9.  Deleting a stored key other than the master key removes that
    record and no other, writes the snapshot and leaves the windows of
    the rate limiter as they were (the window of the deleted key
    included).  Afterwards the key is unknown: its admission is refused
    with 401, and toggling or deleting it again is answered with 404,
    each without changing the state. *)
Theorem deleted_key_is_unknown environ k s d :
  api_keys_db s !! k = Some d → k ≠ MASTER_API_KEY environ →
  let r := delete_api_key environ k s in
  r.1 = Return (RespMessage
                  ("Successfully deleted API key for owner: '"
                     +:+ owner d +:+ "'."))
  ∧ api_keys_db r.2 = delete k (api_keys_db s)
  ∧ rate_limit_tracker r.2 = rate_limit_tracker s
  ∧ snapshot_current r.2
  ∧ (∀ now utcnow,
       get_api_key k now utcnow r.2 = (Raise (HTTPException 401), r.2))
  ∧ delete_api_key environ k r.2 = (Raise (HTTPException 404), r.2)
  ∧ toggle_api_key_status environ k r.2 = (Raise (HTTPException 404), r.2).
Proof.
  intros Hk Hne r. apply String.eqb_neq in Hne.
  assert (E : r = (Return (RespMessage
                             ("Successfully deleted API key for owner: '"
                                +:+ owner d +:+ "'.")),
                   save_keys_to_file
                     (set_db (delete k (api_keys_db s)) s))).
  { subst r. unfold delete_api_key. by rewrite Hk, Hne. }
  rewrite E. cbn [fst snd].
  assert (Hgone : api_keys_db
                    (save_keys_to_file (set_db (delete k (api_keys_db s)) s))
                  !! k = None) by (simpl; apply lookup_delete_eq).
  split; [done |]. split; [done |]. split; [done |]. split; [done |].
  split; [intros now u; by apply get_api_key_absent |].
  unfold delete_api_key, toggle_api_key_status. by rewrite Hgone.
Qed.

Lemma deleted_key_is_unknown_witness :
  let d := {| key := "k1"; owner := "alice"; requests_per_minute := 2;
              is_active := true; total_requests := 4;
              created_at := "c"; last_used := None |} in
  let s := {| api_keys_db := {[ "k1" := d ]};
              rate_limit_tracker := {[ "k1" := [1%Q] ]};
              api_key_file := None; stdout := [] |} in
  let r := delete_api_key ∅ "k1" s in
  get_api_key "k1" 2 "u" r.2 = (Raise (HTTPException 401), r.2).
Proof.
  intros d s r.
  assert (Hne : "k1" ≠ MASTER_API_KEY ∅) by (vm_compute; discriminate).
  apply (proj1 (proj2 (proj2 (proj2 (proj2
           (deleted_key_is_unknown ∅ "k1" s d eq_refl Hne)))))).
Defined.

(** X10.  The listing returns exactly the records of the store, one for
    each stored key, and changes nothing. *)
Theorem list_returns_every_record s :
  ∃ ds, list_api_keys s = (Return (RespKeys ds), s)
        ∧ (∀ d, d ∈ ds ↔ ∃ k, api_keys_db s !! k = Some d)
        ∧ length ds = size (api_keys_db s).
Proof.
  eexists. split; [done |]. split.
  - intros d. rewrite list_elem_of_fmap. split.
    + intros ([k d'] & -> & Hin). exists k. by apply elem_of_map_to_list.
    + intros (k & Hk). exists (k, d). split; [done |].
      by apply elem_of_map_to_list.
  - rewrite length_fmap. apply length_map_to_list.
Qed.

(** ** Restarting on a snapshot *)

Lemma startup_from_dump environ utcnow_load utcnow m :
  startup_event environ utcnow_load utcnow
    (fresh_process (Some (Json (dump_db m))))
  = (print "API is ready to accept requests."
       (ensure_master (MASTER_API_KEY environ) utcnow
          (set_db m (print "Starting up the API server..."
                       (fresh_process (Some (Json (dump_db m))))))),
     None).
Proof. unfold startup_event. by rewrite (load_dump _ m). Qed.

Lemma startup_with_master environ utcnow_load utcnow m k d :
  m !! k = Some d → owner d = "master" → k ≠ "" →
  ∃ s', startup_event environ utcnow_load utcnow
          (fresh_process (Some (Json (dump_db m)))) = (s', None)
        ∧ api_keys_db s' = m
        ∧ rate_limit_tracker s' = ∅
        ∧ api_key_file s' = Some (Json (dump_db m)).
Proof.
  intros Hk Ho Hne. rewrite startup_from_dump.
  rewrite (ensure_master_present _ _ _ k d) by done.
  eexists. done.
Qed.

(** X11.  From every reachable state the process can be started again
    on the snapshot file it left: the startup raises nothing, and the
    state it produces is reachable in turn. *)
Theorem restart_succeeds environ utcnow_load utcnow s :
  reachable environ s →
  ∃ s', startup_event environ utcnow_load utcnow
          (fresh_process (api_key_file s)) = (s', None)
        ∧ reachable environ s'.
Proof.
  intros Hr. destruct (reachable_invariant environ s Hr) as [_ (m & Hf & _)].
  assert (E : ∃ s', startup_event environ utcnow_load utcnow
                      (fresh_process (api_key_file s)) = (s', None)).
  { rewrite Hf, startup_from_dump. by eexists. }
  destruct E as [s' E]. exists s'. split; [done |].
  by apply (reach_restart environ s utcnow_load utcnow s').
Qed.

Lemma restart_succeeds_witness :
  let s0 := (startup_event ∅ "t0" "t0" (fresh_process None)).1 in
  let s := handle ∅ (Admission (MASTER_API_KEY ∅) 0 "t1") s0 in
  ∃ s', startup_event ∅ "t2" "t2" (fresh_process (api_key_file s)) = (s', None)
        ∧ reachable ∅ s'.
Proof.
  intros s0 s. apply (restart_succeeds ∅ "t2" "t2" s).
  apply reach_request. apply (reach_boot ∅ "t0" "t0"). reflexivity.
Defined.

(** X12.  When the store holds a record with owner master under a key
    that is not empty, running the shutdown hook and starting a new
    process on the file gives back the same store, request counters and
    last uses included; the new process starts with no rate window. *)
Theorem graceful_restart_keeps_store environ utcnow_load utcnow s k d :
  api_keys_db s !! k = Some d → owner d = "master" → k ≠ "" →
  ∃ s', startup_event environ utcnow_load utcnow
          (fresh_process (api_key_file (shutdown_event s))) = (s', None)
        ∧ api_keys_db s' = api_keys_db s
        ∧ rate_limit_tracker s' = ∅
        ∧ api_key_file s' = api_key_file (shutdown_event s).
Proof.
  intros Hk Ho Hne.
  apply (startup_with_master environ utcnow_load utcnow (api_keys_db s) k d);
    done.
Qed.

Lemma graceful_restart_keeps_store_witness :
  let s0 := (startup_event ∅ "t0" "t0" (fresh_process None)).1 in
  let s := handle ∅ (Admission (MASTER_API_KEY ∅) 0 "t1") s0 in
  ∃ s', startup_event ∅ "t2" "t2"
          (fresh_process (api_key_file (shutdown_event s))) = (s', None)
        ∧ api_keys_db s' = api_keys_db s
        ∧ rate_limit_tracker s' = ∅
        ∧ api_key_file s' = api_key_file (shutdown_event s).
Proof.
  intros s0 s.
  apply (graceful_restart_keeps_store ∅ "t2" "t2" s (MASTER_API_KEY ∅)
           (record_use "t1" (master_record (MASTER_API_KEY ∅) "t0"))).
  - reflexivity.
  - reflexivity.
  - vm_compute. discriminate.
Defined.

Lemma serve_admissions_file environ rs :
  ∀ s, Forall (λ r, ∃ k t u, r = Admission k t u) rs →
       api_key_file (serve environ rs s) = api_key_file s.
Proof.
  induction rs as [|r rs IH]; intros s Hrs; [done |].
  apply Forall_cons in Hrs as [(k & t & u & ->) Hrs]. simpl.
  rewrite (IH _ Hrs). apply get_api_key_file.
Qed.

(** X13.  The usage recorded by admitted requests lives in memory only:
    when the snapshot holds the store, any number of admission checks
    are served and the process is then started again without the
    shutdown hook having run, the new store is the one of the snapshot,
    without the counters and last uses of those requests. *)
Theorem crash_restart_reverts_usage environ utcnow_load utcnow s rs k d :
  snapshot_current s →
  api_keys_db s !! k = Some d → owner d = "master" → k ≠ "" →
  Forall (λ r, ∃ k' t u, r = Admission k' t u) rs →
  ∃ s', startup_event environ utcnow_load utcnow
          (fresh_process (api_key_file (serve environ rs s))) = (s', None)
        ∧ api_keys_db s' = api_keys_db s.
Proof.
  intros Hsnap Hk Ho Hne Hrs.
  rewrite (serve_admissions_file environ rs s Hrs), Hsnap.
  destruct (startup_with_master environ utcnow_load utcnow
              (api_keys_db s) k d Hk Ho Hne) as (s' & E & Hdb & _).
  by exists s'.
Qed.

Lemma crash_restart_reverts_usage_witness :
  let s := (startup_event ∅ "t0" "t0" (fresh_process None)).1 in
  let rs := [Admission (MASTER_API_KEY ∅) 0 "t1";
             Admission (MASTER_API_KEY ∅) 1 "t2"] in
  ∃ s', startup_event ∅ "t3" "t3"
          (fresh_process (api_key_file (serve ∅ rs s))) = (s', None)
        ∧ api_keys_db s' = api_keys_db s.
Proof.
  intros s rs.
  apply (crash_restart_reverts_usage ∅ "t3" "t3" s rs (MASTER_API_KEY ∅)
           (master_record (MASTER_API_KEY ∅) "t0")).
  - reflexivity.
  - reflexivity.
  - reflexivity.
  - vm_compute. discriminate.
  - repeat constructor; by do 3 eexists.
Defined.


(** ** Loading stops at the first malformed entry *)

Lemma load_items_bad_entry utcnow (l : list (string * APIKeyData)) k v rest
    (db0 : gmap string APIKeyData) :
  (∀ kw, v ≠ JDict kw) →
  load_items utcnow
    (((λ kd : string * APIKeyData, (kd.1, dict kd.2)) <$> l) ++ (k, v) :: rest)
    db0
  = (foldl (λ (m : gmap string APIKeyData) (kd : string * APIKeyData),
            <[kd.1 := kd.2]> m) db0 l, Some TypeError).
Proof.
  intros Hv. revert db0. induction l as [|[k1 d1] l IH]; intros db0.
  - simpl. destruct v; try done. by destruct (Hv items).
  - cbn [fmap list_fmap app load_items fst snd foldl]. unfold dict.
    rewrite APIKeyData_init_fields. apply IH.
Qed.

Lemma foldl_insert_list_to_map (l : list (string * APIKeyData)) :
  NoDup l.*1 →
  foldl (λ (m : gmap string APIKeyData) (kd : string * APIKeyData),
         <[kd.1 := kd.2]> m) ∅ l
  = list_to_map l.
Proof.
  intros Hnd. apply map_eq. intros k.
  rewrite foldl_insert_lookup by done. rewrite lookup_empty.
  by destruct (list_to_map l !! k).
Qed.

(** X15.  When the snapshot is a JSON object whose entries are complete
    records up to an entry whose value is not an object, loading into an
    empty store keeps the records that come before that entry, ignores
    all entries after it, prints the warning and raises nothing. *)
Theorem load_keeps_entries_before_bad_one utcnow
    (l : list (string * APIKeyData)) k v rest s :
  NoDup l.*1 →
  (∀ kw, v ≠ JDict kw) →
  api_keys_db s = ∅ →
  api_key_file s
  = Some (Json (JDict (((λ kd : string * APIKeyData, (kd.1, dict kd.2)) <$> l)
                         ++ (k, v) :: rest))) →
  load_keys_from_file utcnow s
  = (print load_warning (set_db (list_to_map l) s), None).
Proof.
  intros Hnd Hv Hdb Hf. unfold load_keys_from_file. rewrite Hf, Hdb.
  cbv iota beta. rewrite load_items_bad_entry by done.
  by rewrite foldl_insert_list_to_map.
Qed.

Lemma load_keeps_entries_before_bad_one_witness :
  let d := {| key := "a"; owner := "alice"; requests_per_minute := 5;
              is_active := true; total_requests := 3;
              created_at := "c"; last_used := None |} in
  let e := {| key := "z"; owner := "zoe"; requests_per_minute := 1;
              is_active := true; total_requests := 0;
              created_at := "c"; last_used := None |} in
  let s := fresh_process
             (Some (Json (JDict [("a", dict d); ("b", JNull); ("z", dict e)]))) in
  load_keys_from_file "t" s
  = (print load_warning (set_db (list_to_map [("a", d)]) s), None).
Proof.
  intros d e s.
  apply (load_keeps_entries_before_bad_one "t" [("a", d)] "b" JNull
           [("z", dict e)] s).
  - repeat constructor. set_solver.
  - discriminate.
  - reflexivity.
  - reflexivity.
Defined.

(** ** Well-formed records *)

Lemma records_wf_insert (db : gmap string APIKeyData) k d :
  key d = k → (0 ≤ total_requests d)%Z →
  records_wf db → records_wf (<[k := d]> db).
Proof.
  intros Hk Ht Hdb k' d'. destruct (decide (k = k')) as [<- | Hne].
  - rewrite lookup_insert_eq. by intros [= <-].
  - rewrite lookup_insert_ne by done. apply Hdb.
Qed.

Lemma records_wf_delete (db : gmap string APIKeyData) k :
  records_wf db → records_wf (delete k db).
Proof.
  intros Hdb k' d'. destruct (decide (k = k')) as [<- | Hne].
  - by rewrite lookup_delete_eq.
  - rewrite lookup_delete_ne by done. apply Hdb.
Qed.

Lemma ensure_master_wf master_key utcnow s :
  records_wf (api_keys_db s) →
  (any_master (api_keys_db s) = true → store_wf s) →
  store_wf (ensure_master master_key utcnow s).
Proof.
  intros Hdb H. unfold ensure_master.
  destruct (any_master (api_keys_db s)); simpl; [by apply H |].
  assert (records_wf (<[master_key := master_record master_key utcnow]>
                        (api_keys_db s)))
    by (by apply records_wf_insert).
  split; [done |]. by eexists.
Qed.

Lemma startup_wf environ utcnow_load utcnow f s :
  (f = None ∨ ∃ m, f = Some (Json (dump_db m)) ∧ records_wf m) →
  startup_event environ utcnow_load utcnow (fresh_process f) = (s, None) →
  store_wf s.
Proof.
  intros [-> | (m & -> & Hm)].
  - unfold startup_event.
    cbn [load_keys_from_file print fresh_process api_key_file].
    intros [= <-]. apply ensure_master_wf; simpl.
    + intros k d. by rewrite lookup_empty.
    + rewrite any_master_empty. discriminate.
  - rewrite startup_from_dump. intros [= <-].
    apply ensure_master_wf; [done |]. intros _. split; [done |]. by exists m.
Qed.

Lemma handle_wf environ r s : store_wf s → store_wf (handle environ r s).
Proof.
  intros [Hdb Hfile].
  destruct r as [k t u | a b tok u | a | a k | a k]; cbn [handle].
  - unfold get_api_key.
    destruct (api_keys_db s !! k) as [d0|] eqn:E; [| done].
    destruct (is_active d0) eqn:Ea; simpl; [| done].
    destruct (_ <=? _)%Z; simpl; [done |].
    split; [| done]. destruct (Hdb k d0 E) as [Hkey Htot].
    apply records_wf_insert; simpl; [done | lia | done].
  - unfold admin_route. destruct (is_master environ a); simpl; [| done].
    assert (records_wf
              (<["ytapi_" +:+ tok
                 := {| key := "ytapi_" +:+ tok; owner := req_owner b;
                       requests_per_minute := req_requests_per_minute b;
                       is_active := true; total_requests := 0;
                       created_at := u; last_used := None |}]> (api_keys_db s)))
      by (by apply records_wf_insert).
    split; [done |]. by eexists.
  - unfold admin_route. by destruct (is_master environ a).
  - unfold admin_route. destruct (is_master environ a); simpl; [| done].
    unfold toggle_api_key_status.
    destruct (api_keys_db s !! k) as [d0|] eqn:E; [| done].
    destruct (String.eqb k (MASTER_API_KEY environ)); simpl; [done |].
    destruct (Hdb k d0 E) as [Hkey Htot].
    assert (records_wf
              (<[k := set_is_active (negb (is_active d0)) d0]> (api_keys_db s)))
      by (by apply records_wf_insert).
    split; [done |]. by eexists.
  - unfold admin_route. destruct (is_master environ a); simpl; [| done].
    unfold delete_api_key.
    destruct (api_keys_db s !! k) as [d0|]; [| done].
    destruct (String.eqb k (MASTER_API_KEY environ)); simpl; [done |].
    assert (records_wf (delete k (api_keys_db s)))
      by (by apply records_wf_delete).
    split; [done |]. by eexists.
Qed.

Lemma reachable_store_wf environ s : reachable environ s → store_wf s.
Proof.
  induction 1 as [ul u s Hs | s r _ IH | s _ IH | s ul u s' _ IH Hs].
  - apply (startup_wf environ ul u None); [by left | done].
  - by apply handle_wf.
  - destruct IH as [Hdb _]. split; [done |]. by eexists.
  - apply (startup_wf environ ul u (api_key_file s)); [| done].
    right. apply IH.
Qed.

(** X16.  In every reachable state each record of the store is stored
    under the key it carries in its own [key] field, and its request
    counter is not negative. *)
Theorem reachable_records_wf environ s k d :
  reachable environ s → api_keys_db s !! k = Some d →
  key d = k ∧ (0 ≤ total_requests d)%Z.
Proof.
  intros Hr. destruct (reachable_store_wf environ s Hr) as [Hdb _]. apply Hdb.
Qed.

Lemma reachable_records_wf_witness :
  let s0 := (startup_event ∅ "t0" "t0" (fresh_process None)).1 in
  let s := handle ∅ (Admission (MASTER_API_KEY ∅) 0 "t1") s0 in
  let d := record_use "t1" (master_record (MASTER_API_KEY ∅) "t0") in
  key d = MASTER_API_KEY ∅ ∧ (0 ≤ total_requests d)%Z.
Proof.
  intros s0 s d.
  apply (reachable_records_wf ∅ s (MASTER_API_KEY ∅) d).
  - apply reach_request. apply (reach_boot ∅ "t0" "t0"). reflexivity.
  - reflexivity.
Defined.

(** X17.  With a master key that is not the empty text, the creation of
    the master record at startup is idempotent: after it has run, the
    existence test of line 163 holds, running it again changes nothing,
    and it changes nothing at all when the test held before. *)
Theorem master_created_at_most_once master_key utcnow utcnow' s :
  master_key ≠ "" →
  let s1 := ensure_master master_key utcnow s in
  any_master (api_keys_db s1) = true
  ∧ ensure_master master_key utcnow' s1 = s1
  ∧ (any_master (api_keys_db s) = true → s1 = s).
Proof.
  intros Hne s1.
  assert (H : any_master (api_keys_db s1) = true).
  { subst s1. unfold ensure_master.
    destruct (any_master (api_keys_db s)) eqn:E; [done |].
    simpl. apply any_master_true.
    exists master_key, (master_record master_key utcnow).
    by rewrite lookup_insert_eq. }
  split; [done |]. split.
  - unfold ensure_master at 1. by rewrite H.
  - intros E. subst s1. unfold ensure_master. by rewrite E.
Qed.

Lemma master_created_at_most_once_witness :
  let s1 := ensure_master "m" "t0" (fresh_process None) in
  ensure_master "m" "t1" s1 = s1.
Proof.
  intros s1.
  assert (Hne : "m" ≠ "") by discriminate.
  apply (proj1 (proj2 (master_created_at_most_once "m" "t0" "t1"
                         (fresh_process None) Hne))).
Defined.

(** ** More on the sweep *)

(** X18.  After a sweep in which no removal failed, the directory holds
    no regular file older than the maximum age: a second sweep at the
    same time, over any listing, removes nothing and prints nothing. *)
Theorem sweep_twice_is_sweep_once now names names2 dir out out2 :
  listing_of dir names →
  (∀ n f, dir !! n = Some f → expired now f = true → remove_error f = None) →
  cleanup_sweep now names2 (cleanup_sweep now names dir out).1 out2
  = ((cleanup_sweep now names dir out).1, out2).
Proof.
  intros Hl Hok.
  destruct (sweep_files_no_failure now names dir out) as (d1 & o1 & E).
  { intros n f _. apply Hok. }
  destruct (sweep_files_spec now names _ _ _ _ _ E) as [H1 H2].
  rewrite cleanup_sweep_dir, E. simpl.
  unfold cleanup_sweep. rewrite sweep_files_no_expired; [done |].
  intros n f Hn. destruct (expired now f) eqn:Hexp; [| done]. exfalso.
  destruct (H1 n) as [En | [En _]]; [| congruence].
  rewrite En in Hn.
  assert (Hgone : d1 !! n = None).
  { apply (H2 eq_refl n f); [| done | done]. apply Hl. by eexists. }
  congruence.
Qed.

Lemma sweep_twice_is_sweep_once_witness :
  let old := {| isfile := true; st_mtime := 100; remove_error := None |} in
  let new := {| isfile := true; st_mtime := 9000; remove_error := None |} in
  let dir : gmap string dirent := {[ "old.mp4" := old; "new.mp4" := new ]} in
  let d1 := (cleanup_sweep 10000 ["old.mp4"; "new.mp4"] dir []).1 in
  cleanup_sweep 10000 ["new.mp4"; "old.mp4"] d1 [] = (d1, []).
Proof.
  intros old new dir d1.
  apply (sweep_twice_is_sweep_once 10000 ["old.mp4"; "new.mp4"]
           ["new.mp4"; "old.mp4"] dir [] []).
  - apply listing_two.
  - intros n f Hn _.
    destruct (decide (n = "old.mp4")) as [-> | H1];
      [injection Hn as Hn'; by rewrite <- Hn' |].
    destruct (decide (n = "new.mp4")) as [-> | H2];
      [injection Hn as Hn'; by rewrite <- Hn' |].
    unfold dir in Hn.
    rewrite lookup_insert_ne, lookup_singleton_ne in Hn by done.
    discriminate.
Defined.

Lemma cleaned_lines_delete now rest x (dir : gmap string dirent) :
  x ∉ rest →
  cleaned_lines now rest (delete x dir) = cleaned_lines now rest dir.
Proof.
  intros Hx. unfold cleaned_lines. f_equal. apply filter_ext_in.
  intros n Hn. rewrite lookup_delete_ne; [done |].
  intros ->. by apply Hx, list_elem_of_In.
Qed.

Lemma sweep_files_lines now names :
  ∀ dir out,
    NoDup names →
    (∀ n f, n ∈ names → dir !! n = Some f → expired now f = true →
            remove_error f = None) →
    (sweep_files now names dir out).1.2 = out ++ cleaned_lines now names dir
    ∧ (sweep_files now names dir out).2 = None.
Proof.
  induction names as [|x rest IH]; intros dir out Hnd Hok.
  { simpl. unfold cleaned_lines. simpl. by rewrite app_nil_r. }
  apply NoDup_cons in Hnd as [Hx Hnd].
  assert (Hrest : ∀ dir' : gmap string dirent,
                   (∀ n, n ≠ x → dir' !! n = dir !! n) →
                   ∀ n f, n ∈ rest → dir' !! n = Some f →
                          expired now f = true → remove_error f = None).
  { intros dir' Hd n f Hn. rewrite Hd by (intros ->; done).
    apply Hok. by apply elem_of_cons; right. }
  unfold cleaned_lines. cbn [sweep_files List.filter].
  destruct (dir !! x) as [f|] eqn:Ex; [| by apply IH, (Hrest dir)].
  unfold expired at 1.
  destruct (isfile f) eqn:Hf; [| by apply IH, (Hrest dir)].
  destruct (Qlt_bool _ _) eqn:Hold; [| by apply IH, (Hrest dir)].
  rewrite (Hok x f); [| by apply elem_of_cons; left | done
                      | unfold expired; by rewrite Hf, Hold].
  simpl.
  destruct (IH (delete x dir) (out ++ ["Cleaned up old file: " +:+ x]) Hnd)
    as [E1 E2].
  { apply Hrest. intros n Hn. by rewrite lookup_delete_ne. }
  rewrite E1, E2, cleaned_lines_delete by done.
  split; [| done]. unfold cleaned_lines. by rewrite <- app_assoc.
Qed.

(** X19.  In a sweep over a listing without repetition in which no
    removal fails, the lines printed are exactly one line per removed
    file, naming it, in the order of the listing, and no error line. *)
Theorem sweep_prints_each_removal now names dir out :
  NoDup names →
  (∀ n f, n ∈ names → dir !! n = Some f → expired now f = true →
          remove_error f = None) →
  (cleanup_sweep now names dir out).2 = out ++ cleaned_lines now names dir.
Proof.
  intros Hnd Hok.
  destruct (sweep_files_lines now names dir out Hnd Hok) as [E1 E2].
  unfold cleanup_sweep.
  destruct (sweep_files now names dir out) as [[d o] e]. simpl in *.
  by subst.
Qed.

Lemma sweep_prints_each_removal_witness :
  let old := {| isfile := true; st_mtime := 100; remove_error := None |} in
  let new := {| isfile := true; st_mtime := 9000; remove_error := None |} in
  let dir : gmap string dirent := {[ "old.mp4" := old; "new.mp4" := new ]} in
  (cleanup_sweep 10000 ["old.mp4"; "new.mp4"] dir []).2
  = ["Cleaned up old file: old.mp4"].
Proof.
  intros old new dir.
  rewrite (sweep_prints_each_removal 10000 ["old.mp4"; "new.mp4"] dir []).
  - reflexivity.
  - apply (bool_decide_unpack _). by vm_compute.
  - intros n f Hn Hf _.
    destruct (decide (n = "old.mp4")) as [-> | H1];
      [injection Hf as Hf'; by rewrite <- Hf' |].
    destruct (decide (n = "new.mp4")) as [-> | H2];
      [injection Hf as Hf'; by rewrite <- Hf' |].
    unfold dir in Hf.
    rewrite lookup_insert_ne, lookup_singleton_ne in Hf by done.
    discriminate.
Defined.

(** ** Artifact names *)

Lemma append_cons x (a b : string) : String x a +:+ b = String x (a +:+ b).
Proof. reflexivity. Qed.

Lemma prefix_app_same (a b c : string) :
  String.prefix (a +:+ b) (a +:+ c) = String.prefix b c.
Proof.
  induction a as [|x a IH]; [reflexivity |].
  rewrite !append_cons. simpl.
  destruct (Ascii.ascii_dec x x); [apply IH | done].
Qed.

Lemma prefix_same_length (t1 : string) :
  ∀ t2 ext, String.length t1 = String.length t2 →
            String.prefix t1 (t2 +:+ ext) = true → t1 = t2.
Proof.
  induction t1 as [|x t1 IH]; intros [|y t2] ext Hlen Hp;
    rewrite ?append_cons in Hp; simpl in *; try done.
  destruct (Ascii.ascii_dec x y) as [-> |]; [| done].
  f_equal. apply (IH t2 ext); [lia | done].
Qed.

Lemma append_assoc (a b c : string) : (a +:+ b) +:+ c = a +:+ (b +:+ c).
Proof.
  induction a as [|x a IH]; [reflexivity |].
  rewrite !append_cons. by f_equal.
Qed.

(** X20.  [download_video] picks the first name of the listing that
    starts with the base of the job and joins it to the download
    directory; when no listed name starts with the base it picks nothing
    (the handler then answers 500).  A picked name that does not begin
    with a slash gives the path temp_downloads/name. *)
Theorem downloaded_file_first_match listing base :
  match downloaded_file listing base with
  | Some p =>
      ∃ pre file post,
        listing = pre ++ file :: post
        ∧ Forall (λ f, String.prefix base f = false) pre
        ∧ String.prefix base file = true
        ∧ p = os_path_join TEMP_DOWNLOAD_DIR file
        ∧ (String.prefix "/" file = false → p = "temp_downloads/" +:+ file)
  | None => Forall (λ f, String.prefix base f = false) listing
  end.
Proof.
  induction listing as [|f listing IH]; simpl; [constructor |].
  destruct (String.prefix base f) eqn:Hp.
  - exists [], f, listing. repeat split; try done.
    intros Hs. unfold os_path_join. rewrite Hs. reflexivity.
  - destruct (downloaded_file listing base) as [p|].
    + destruct IH as (pre & file & post & -> & Hpre & Hfile & Hpath).
      exists (f :: pre), file, post. repeat split; try done; try apply Hpath.
      by constructor.
    + by constructor.
Qed.

Lemma downloaded_file_first_match_witness :
  ∃ pre file post,
    ["notes.txt"; "abc_12345678.mp4"; "abc_12345678.part"]
    = pre ++ file :: post
    ∧ Forall (λ f, String.prefix "abc_12345678" f = false) pre
    ∧ String.prefix "abc_12345678" file = true
    ∧ "temp_downloads/abc_12345678.mp4" = os_path_join TEMP_DOWNLOAD_DIR file
    ∧ (String.prefix "/" file = false
       → "temp_downloads/abc_12345678.mp4" = "temp_downloads/" +:+ file).
Proof.
  exact (downloaded_file_first_match
           ["notes.txt"; "abc_12345678.mp4"; "abc_12345678.part"]
           "abc_12345678").
Defined.

(** X21.  Two jobs for the same video whose tokens have the same length
    (the random source always gives eight characters) and differ have
    different bases, no file name built on the base of one starts with
    the base of the other, and a listing that holds only files of the
    other job gives the first job nothing. *)
Theorem distinct_tokens_distinct_artifacts video_id t1 t2 :
  String.length t1 = String.length t2 → t1 ≠ t2 →
  unique_filename_base video_id t1 ≠ unique_filename_base video_id t2
  ∧ (∀ ext, String.prefix (unique_filename_base video_id t1)
              (unique_filename_base video_id t2 +:+ ext) = false)
  ∧ (∀ listing,
       Forall (λ f, ∃ ext, f = unique_filename_base video_id t2 +:+ ext)
         listing →
       downloaded_file listing (unique_filename_base video_id t1) = None).
Proof.
  intros Hlen Hne.
  assert (Hp : ∀ ext, String.prefix (unique_filename_base video_id t1)
                        (unique_filename_base video_id t2 +:+ ext) = false).
  { intros ext. unfold unique_filename_base.
    rewrite !append_assoc, prefix_app_same.
    rewrite !append_cons.
    change ("" +:+ t1) with t1. change ("" +:+ (t2 +:+ ext)) with (t2 +:+ ext).
    cbn [String.prefix]. destruct (Ascii.ascii_dec _ _); [| done].
    destruct (String.prefix t1 (t2 +:+ ext)) eqn:E; [| done].
    destruct Hne. by apply (prefix_same_length t1 t2 ext). }
  split; [| split; [done |]].
  - intros E. specialize (Hp ""). rewrite <- E in Hp.
    assert (H : ∀ a : string, String.prefix a (a +:+ "") = true).
    { intros a. induction a as [|x a IH]; [reflexivity |].
      rewrite append_cons. simpl. by destruct (Ascii.ascii_dec x x). }
    by rewrite H in Hp.
  - intros listing Hl. induction Hl as [|f listing (ext & ->) _ IH]; simpl;
      [done |].
    by rewrite Hp.
Qed.

Lemma distinct_tokens_distinct_artifacts_witness :
  downloaded_file ["dQw4w9WgXcQ_0badcafe.mp4"; "dQw4w9WgXcQ_0badcafe.part"]
    (unique_filename_base "dQw4w9WgXcQ" "deadbeef")
  = None.
Proof.
  assert (Hlen : String.length "deadbeef" = String.length "0badcafe")
    by reflexivity.
  assert (Hne : "deadbeef" ≠ "0badcafe") by discriminate.
  apply (proj2 (proj2 (distinct_tokens_distinct_artifacts
                         "dQw4w9WgXcQ" "deadbeef" "0badcafe" Hlen Hne))).
  repeat constructor.
  - by exists ".mp4".
  - by exists ".part".
Defined.

(** X22.  A video job never picks a file of an audio job for the same
    video: when the token of the video job is made of hexadecimal digits
    and has at least two of them, no name built on the audio base starts
    with the video base, so a listing holding only such names gives the
    video job nothing. *)
Theorem video_job_ignores_audio_files video_id t1 t2 :
  Forall (λ c, hexdigit c = true) (String.list_ascii_of_string t1) →
  2 ≤ String.length t1 →
  (∀ ext, String.prefix (unique_filename_base video_id t1)
            (audio_filename_base video_id t2 +:+ ext) = false)
  ∧ (∀ listing,
       Forall (λ f, ∃ ext, f = audio_filename_base video_id t2 +:+ ext)
         listing →
       downloaded_file listing (unique_filename_base video_id t1) = None).
Proof.
  intros Hhex Hlen.
  assert (Hp : ∀ ext, String.prefix (unique_filename_base video_id t1)
                        (audio_filename_base video_id t2 +:+ ext) = false).
  { intros ext. unfold unique_filename_base, audio_filename_base.
    rewrite !append_assoc, prefix_app_same. rewrite !append_cons.
    change ("" +:+ t1) with t1.
    cbn [String.prefix]. destruct (Ascii.ascii_dec _ _); [| done].
    destruct t1 as [|c1 [|c2 t1]]; simpl in Hlen; [lia | lia |].
    rewrite ?append_cons. cbn [String.prefix].
    destruct (Ascii.ascii_dec c1 _) as [-> |]; [| done].
    destruct (Ascii.ascii_dec c2 _) as [-> |]; [| done].
    simpl in Hhex. apply Forall_cons in Hhex as [_ Hhex].
    apply Forall_cons in Hhex as [Hu _]. by vm_compute in Hu. }
  split; [done |].
  intros listing Hl. induction Hl as [|f listing (ext & ->) _ IH]; simpl;
    [done |].
  by rewrite Hp.
Qed.

Lemma video_job_ignores_audio_files_witness :
  downloaded_file ["dQw4w9WgXcQ_audio_0badcafe.mp3"]
    (unique_filename_base "dQw4w9WgXcQ" "deadbeef")
  = None.
Proof.
  assert (Hhex : Forall (λ c, hexdigit c = true)
                   (String.list_ascii_of_string "deadbeef"))
    by (repeat constructor).
  assert (Hlen : 2 ≤ String.length "deadbeef") by (simpl; lia).
  apply (proj2 (video_job_ignores_audio_files
                  "dQw4w9WgXcQ" "deadbeef" "0badcafe" Hhex Hlen)).
  repeat constructor. by exists ".mp3".
Defined.
